(** * serverless-genomics: reducer helpers and chunk stage functions

    A shallow embedding of
    - [serverlessgenomics/reducer/reduce_functions.py]
      ([reduce_function], [distribute_indexes], [finish],
      [complete_multipart], [keys_by_fasta_split],
      [create_multipart_keys]);
    - [serverlessgenomics/mapping/alignment_mapper.py]
      ([gem_indexer], [align_mapper], [index_correction],
      [filter_index_to_mpileup], and the loop over the bin edges of
      [mpileup_conversion]) together with
      [force_delete_local_path] of [serverlessgenomics/utils.py].

    Python integers are [Z], strings are [string], lists and tuples are
    [list].  Dictionaries whose iteration order is observable are
    insertion-ordered association lists.  The bucket of the object store is a
    [gset string] of keys.  The [Stats] objects only record timings and sizes
    and are left out. *)

From Stdlib Require Import ZArith List String Ascii Lia Permutation Sorted.
From Stdlib Require Import DecimalString DecimalZ DecimalPos.
From stdpp Require Import gmap strings.
Import ListNotations.

Local Open Scope string_scope.
Local Open Scope list_scope.
Local Open Scope Z_scope.

(** ** Python exceptions that the modelled code can raise *)

Inductive exn : Type :=
| IndexError
| UnboundLocalError
| AssertionError
| CalledProcessError
| StorageNoSuchKeyError
| OSError (what : string).

Definition result (A : Type) : Type := exn + A.

(* ===================================================================== *)
(** * Multipart upload completion *)
(* ===================================================================== *)

Module Mpu.

(** The dictionary returned by [reduce_function] and [final_merge]:
    [{"PartNumber": n_part, "ETag": part["ETag"], "mpu_id": mpu_id}]. *)
Record part : Type := mk_part {
  PartNumber : Z;
  ETag : string;
  mpu_id : string
}.

(** [{"PartNumber": part["PartNumber"], "ETag": part["ETag"]}] *)
Definition entry : Type := (Z * string)%type.

Definition strip (p : part) : entry := (PartNumber p, ETag p).

(** One call of [s3.complete_multipart_upload(Bucket, Key, UploadId,
    MultipartUpload={"Parts": mpu_part})]. *)
Record completion : Type := mk_completion {
  Key : string;
  UploadId : string;
  Parts : list entry
}.

(** The inner loop shared by [finish] and [complete_multipart]:
<<
    for part in parts:
        if mpu_id == part["mpu_id"]:
            mpu_part.append({...}); remove = remove + 1
        else:
            break
>>
    It returns [(mpu_part, remove)]. *)
Fixpoint scan_parts (id : string) (parts : list part) : list entry * nat :=
  match parts with
  | [] => ([], O)
  | p :: rest =>
      if String.eqb id (mpu_id p)
      then let '(mpu_part, remove) := scan_parts id rest in
           (strip p :: mpu_part, S remove)
      else ([], O)
  end.

Definition finish (key id : string) (parts : list part) : completion :=
  let '(mpu_part, _) := scan_parts id parts in
  mk_completion key id mpu_part.

(** [for key, mpu_id in zip(keys, mpu_ids): ...; parts = parts[remove:]] *)
Fixpoint complete_loop (kids : list (string * string)) (parts : list part)
  : list completion :=
  match kids with
  | [] => []
  | (key, id) :: kids' =>
      let '(mpu_part, remove) := scan_parts id parts in
      mk_completion key id mpu_part :: complete_loop kids' (skipn remove parts)
  end.

Definition complete_multipart (keys mpu_ids : list string) (parts : list part)
  : list completion :=
  complete_loop (combine keys mpu_ids) parts.

(** *** Vocabulary of the grouping property *)

(** The parts of the shared list that carry a given upload id. *)
Definition own_parts (id : string) (parts : list part) : list entry :=
  map strip (List.filter (fun p => String.eqb id (mpu_id p)) parts).

Definition ascending (es : list entry) : Prop :=
  StronglySorted Z.lt (map fst es).

(** Every upload of [mpu_ids] is finalised, with exactly its own parts
    from the shared list, in ascending part-number order. *)
Definition finalizes_grouped (keys mpu_ids : list string) (parts : list part)
  : Prop :=
  let calls := complete_multipart keys mpu_ids parts in
  map UploadId calls = mpu_ids /\
  Forall (fun c => Permutation (Parts c) (own_parts (UploadId c) parts)
                   /\ ascending (Parts c)) calls.

(** The calls that finalise each upload with the group listed for it. *)
Fixpoint grouped_calls (keys mpu_ids : list string) (groups : list (list part))
  : list completion :=
  match keys, mpu_ids, groups with
  | key :: keys', id :: mpu_ids', g :: groups' =>
      mk_completion key id (map strip g) :: grouped_calls keys' mpu_ids' groups'
  | _, _, _ => []
  end.

(** A group as the reduce workers of one upload return it: every part
    carries the upload id, and the part numbers increase. *)
Definition group_for (id : string) (g : list part) : Prop :=
  Forall (fun p => mpu_id p = id) g /\ ascending (map strip g).

(** The arrival order of the example in the specification:
    [U1P1, U2P1, U1P2, U3P1, U2P2, U3P2]. *)
Definition interleaved_parts : list part :=
  [ mk_part 1 "e11" "U1"; mk_part 1 "e21" "U2"; mk_part 2 "e12" "U1";
    mk_part 1 "e31" "U3"; mk_part 2 "e22" "U2"; mk_part 2 "e32" "U3" ].

End Mpu.

(* ===================================================================== *)
(** * Partition balancer *)
(* ===================================================================== *)

Module Balancer.

(** A value that the local variable [key] of [distribute_indexes] may hold:
    the first loop binds it to a source key (a string), the second loop
    rebinds it to an index (an integer). *)
Inductive pyval : Type :=
| PInt (z : Z)
| PStr (s : string).

(** [count_indexes]: an insertion-ordered dictionary index -> count. *)
Definition dict : Type := list (Z * Z).

(** [d.get(k, default)] *)
Fixpoint dict_get (d : dict) (k default : Z) : Z :=
  match d with
  | [] => default
  | (k', v) :: d' => if Z.eqb k k' then v else dict_get d' k default
  end.

(** [d[k] = v]: an existing key keeps its position, a new key goes last. *)
Fixpoint dict_set (d : dict) (k v : Z) : dict :=
  match d with
  | [] => [(k, v)]
  | (k', v') :: d' =>
      if Z.eqb k k' then (k', v) :: d' else (k', v') :: dict_set d' k v
  end.

(** [for index in int_indexes:
       count_indexes[index] = count_indexes.get(index, 0) + 1] *)
Definition count_records (d : dict) (int_indexes : list Z) : dict :=
  fold_left (fun d index => dict_set d index (dict_get d index 0 + 1))
            int_indexes d.

(** The first loop.  [select key] is the column of integers that the
    S3 SELECT query [SELECT cast(s._2 as int) FROM s3object s] yields for the
    object [key], after the payload was split into lines and parsed. *)
Definition count_keys (select : string -> list Z) (keys : list string) : dict :=
  fold_left (fun d key => count_records d (select key)) keys [].

(** What the first loop leaves in the local [index]: its inner loop
    [for index in int_indexes] binds it to every record in turn, so after
    the loop it holds the last record read, and it is unbound ([None]) only
    when no source yielded a record. *)
Definition bind_index (index : option Z) (int_indexes : list Z) : option Z :=
  fold_left (fun _ index => Some index) int_indexes index.

Definition last_index (select : string -> list Z) (keys : list string)
  : option Z :=
  fold_left (fun index key => bind_index index (select key)) keys None.

(** The second loop, over the dictionary in its iteration order, with the
    locals [workers_data], [indexes] and [index] ([None]: not yet bound).
<<
    for key in count_indexes:
        if indexes + count_indexes[key] < MAX_INDEXES:
            indexes += count_indexes[key]
            index = key
        else:
            indexes = 0
            workers_data.append(index)
>> *)
Fixpoint walk (MAX : Z) (items : dict)
         (workers_data : list Z) (indexes : Z) (index : option Z)
  : result (list Z) :=
  match items with
  | [] => inr workers_data
  | (key, c) :: items' =>
      if indexes + c <? MAX
      then walk MAX items' workers_data (indexes + c) (Some key)
      else match index with
           | None => inl UnboundLocalError
           | Some i => walk MAX items' (workers_data ++ [i]) 0 index
           end
  end.

(** The value of [key] at [workers_data.append(key)]: the last index of the
    dictionary, or, when the dictionary is empty, what the first loop left
    in the same variable: the last source key. *)
Definition final_key (keys : list string) (count_indexes : dict) : pyval :=
  match count_indexes with
  | [] => PStr (List.last keys "")
  | kc :: d => PInt (fst (List.last d kc))
  end.

(** [distribute_indexes] with the local constant [MAX_INDEXES] as a
    parameter.  [keys[0]] is read for the timer name before anything else.
    The second loop starts with [index] as the first loop left it. *)
Definition distribute (MAX : Z) (select : string -> list Z)
           (keys : list string) : result (list pyval) :=
  match keys with
  | [] => inl IndexError
  | _ :: _ =>
      let count_indexes := count_keys select keys in
      match walk MAX count_indexes [] 0 (last_index select keys) with
      | inl e => inl e
      | inr workers_data =>
          inr (map PInt workers_data ++ [final_key keys count_indexes])
      end
  end.

Definition MAX_INDEXES : Z := 20000000.

Definition distribute_indexes : (string -> list Z) -> list string
                                -> result (list pyval) :=
  distribute MAX_INDEXES.

(** *** Ranges *)

Record PartitionRange : Type := mk_range {
  range_start : Z;
  range_end : Z
}.

(** The predicate of [reduce_function]:
    [cast(s._2 as int) BETWEEN range["start"] AND range["end"]]. *)
Definition in_range (r : PartitionRange) (k : Z) : bool :=
  (range_start r <=? k) && (k <=? range_end r).

(** Modelled from the spec: the caller that turns the boundaries into
    ranges is not among the sources; the start of a range is the previous
    boundary + 1, or the domain minimum for the first range. *)
Fixpoint ranges_from (prev : Z) (ends : list Z) : list PartitionRange :=
  match ends with
  | [] => []
  | b :: ends' => mk_range (prev + 1) b :: ranges_from b ends'
  end.

Definition ranges_of (domain_min : Z) (ends : list Z) : list PartitionRange :=
  match ends with
  | [] => []
  | b :: ends' => mk_range domain_min b :: ranges_from b ends'
  end.

Definition domain_min (d : dict) : Z :=
  match d with
  | [] => 0
  | (k, _) :: d' => fold_left Z.min (map fst d') k
  end.

(** Sum of a list of counts. *)
Definition zsum (l : list Z) : Z := fold_right Z.add 0 l.

Definition total (d : dict) : Z := zsum (map snd d).

(** Number of records whose index falls inside a range. *)
Definition range_count (d : dict) (r : PartitionRange) : Z :=
  zsum (map snd (List.filter (fun kc => in_range r (fst kc)) d)).

(** The keys that fall inside a range. *)
Definition range_keys (d : dict) (r : PartitionRange) : list Z :=
  List.filter (in_range r) (map fst d).

(** Each range starts right after the end of the one before it. *)
Fixpoint contiguous (rs : list PartitionRange) : Prop :=
  match rs with
  | r1 :: ((r2 :: _) as rs') => range_start r2 = range_end r1 + 1 /\ contiguous rs'
  | _ => True
  end.

(** The number of ranges a key falls into. *)
Definition hits (rs : list PartitionRange) (k : Z) : nat :=
  length (List.filter (fun r => in_range r k) rs).

(** The balancer returns integer boundaries whose ranges hold, together,
    as many records as the input has. *)
Definition covers (MAX : Z) (select : string -> list Z) (keys : list string)
  : Prop :=
  let d := count_keys select keys in
  exists ends,
    distribute MAX select keys = inr (map PInt ends) /\
    zsum (map (range_count d) (ranges_of (domain_min d) ends)) = total d.

(** Two source objects whose index columns are [5] and [1]. *)
Definition two_sources (key : string) : list Z :=
  if String.eqb key "a" then [5] else [1].

(** The count mapping of the example in the specification,
    [{1:5, 2:5, 3:5, 4:5, 5:90}], as one source object. *)
Definition example_records : list Z :=
  repeat 1 5 ++ repeat 2 5 ++ repeat 3 5 ++ repeat 4 5 ++ repeat 5 90.

End Balancer.

(* ===================================================================== *)
(** * Grouping keys by fasta split *)
(* ===================================================================== *)

Module FastaSplit.

(** [occurs sep s]: [sep] is a substring of [s]. *)
Fixpoint occurs (sep s : string) : bool :=
  String.prefix sep s ||
  match s with
  | EmptyString => false
  | String _ s' => occurs sep s'
  end.

(** Python's [s.split(sep)] for a non-empty separator: the pieces between
    the occurrences of [sep], which are searched from left to right and do
    not overlap.  [cur] is the piece being read; after a match the remaining
    [skip] characters of the separator are passed over. *)
Fixpoint split_go (sep : string) (skip : nat) (cur s : string) : list string :=
  match s with
  | EmptyString => [cur]
  | String c s' =>
      match skip with
      | S n => split_go sep n cur s'
      | O =>
          if String.prefix sep s
          then cur :: split_go sep (Nat.pred (String.length sep)) "" s'
          else split_go sep O (cur +:+ String c "") s'
      end
  end.

Definition split (sep s : string) : list string := split_go sep O "" s.

(** [l[-1]] on the result of a split, which is never empty. *)
Definition last_piece (l : list string) : string := List.last l "".

(** The body of the loop, up to the dictionary update:
<<
    fasta_split = k.split("/")[-1]
    fasta_split = fasta_split.split("fa")[-1]
    fasta_split = fasta_split[0]
>>
    Indexing the empty string raises [IndexError]. *)
Definition fasta_split (k : string) : result string :=
  let seg := last_piece (split "/" k) in
  let tail := last_piece (split "fa" seg) in
  match tail with
  | EmptyString => inl IndexError
  | String c _ => inr (String c "")
  end.

(** [defaultdict(list)], in insertion order. *)
Definition key_dict : Type := list (string * list string).

(** [key_dict[g].append(k)] *)
Fixpoint dd_append (d : key_dict) (g k : string) : key_dict :=
  match d with
  | [] => [(g, [k])]
  | (g', ks) :: d' =>
      if String.eqb g g' then (g', ks ++ [k]) :: d'
      else (g', ks) :: dd_append d' g k
  end.

Definition group_step (acc : result key_dict) (k : string) : result key_dict :=
  match acc with
  | inl e => inl e
  | inr d =>
      match fasta_split k with
      | inl e => inl e
      | inr g => inr (dd_append d g k)
      end
  end.

Definition keys_by_fasta_split (keys : list string) : result key_dict :=
  fold_left group_step keys (inr []).

(** [d[g]] for a key that is present, [[]] otherwise. *)
Fixpoint group_of (d : key_dict) (g : string) : list string :=
  match d with
  | [] => []
  | (g', ks) :: d' => if String.eqb g g' then ks else group_of d' g
  end.

(** The concatenation of all group values. *)
Definition all_values (d : key_dict) : list string := concat (map snd d).

(** The final path segment of [k] is [seg]. *)
Definition final_segment (k seg : string) : Prop :=
  occurs "/" seg = false /\ (k = seg \/ exists dir, k = dir +:+ "/" +:+ seg).

(** [c] is the character that follows the last occurrence of ["fa"] in the
    final path segment of [k]. *)
Definition follows_last_fa (k : string) (c : ascii) : Prop :=
  exists seg pre rest,
    final_segment k seg /\
    seg = pre +:+ "fa" +:+ String c rest /\
    occurs "fa" (String c rest) = false.

(** A separator none of whose occurrences can start inside a text and end
    inside an occurrence that follows the text. *)
Definition border_free (sep : string) : Prop :=
  forall (c : ascii) (pre tail : string),
    String.prefix sep (String c pre +:+ sep +:+ tail) = true ->
    exists pre', String c pre = sep +:+ pre'.

(** Every key lands in a group, and the groups hold the input keys and
    nothing else. *)
Definition groups_every_key (keys : list string) : Prop :=
  exists d, keys_by_fasta_split keys = inr d /\ Permutation (all_values d) keys.

End FastaSplit.

(* ===================================================================== *)
(** * Chunk stage functions *)
(* ===================================================================== *)

Module Stages.

(** ** Names and keys *)

(** [str(n)] for an integer. *)
Definition str_int (z : Z) : string := NilZero.string_of_int (Z.to_int z).

Fixpoint ends_with_slash (s : string) : bool :=
  match s with
  | EmptyString => false
  | String c EmptyString => Ascii.eqb c "/"
  | String _ s' => ends_with_slash s'
  end.

(** One round of the loop of [posixpath.join]. *)
Definition join_step (path b : string) : string :=
  if String.prefix "/" b then b
  else if String.eqb path "" || ends_with_slash path then path +:+ b
  else path +:+ "/" +:+ b.

Definition os_path_join (a : string) (p : list string) : string :=
  fold_left join_step p a.

(** [PurePosixPath(key).name]: the last component of the path, where empty
    components and ["."] do not count; [""] when there is none. *)
Definition posix_name (key : string) : string :=
  List.last (List.filter (fun p => negb (String.eqb p "")
                                   && negb (String.eqb p "."))
                         (FastaSplit.split "/" key)) "".

(** The fields of [PipelineParameters] that the stage functions read. *)
Record PipelineParameters : Type := mk_params {
  tmp_prefix : string;
  run_id : string;
  sra_accession : string;
  base_name : string;
  tolerance : Z
}.

(** ** The world a stage function acts on *)

Record world : Type := mk_world {
  objects : gset string;        (* keys present in [storage_bucket] *)
  uploaded : list string;       (* keys written by [upload_file], oldest first *)
  dirs : gset string;           (* local directories that exist *)
  cwd : string;                 (* [os.getcwd()] *)
  made : nat;                   (* number of [mkdtemp] calls so far *)
  ran : list (list string)      (* commands given to [sp.run], oldest first *)
}.

(** Calls into collaborators whose outcome the stage function does not
    control: data sources, the local file system, the transfer to the store
    and the external tools. *)
Inductive ext : Type :=
| fetch_fastq_chunk (chunk_id : Z)
| fetch_fasta_chunk (chunk_id : Z) (file : string)
| getsize (file : string)
| download_file (key file : string)
| shutil_move (src dst : string)
| zip_write (archive file : string)
| zip_extractall (archive : string)
| os_rename (src dst : string)
| os_remove (file : string)
| os_listdir
| put_file (file key : string)
| spawn (cmd : list string).

(** What the collaborators do in one run: which calls raise, and the exit
    status of each command. *)
Record env : Type := mk_env {
  raises : ext -> option exn;
  returncode : list string -> Z;
  cpu_count : Z
}.

(** ** State and exception monad *)

Definition M (A : Type) : Type := world -> world * result A.

#[export] Instance M_ret : MRet M := fun A x w => (w, inr x).

#[export] Instance M_bind : MBind M := fun A B f m w =>
  match m w with
  | (w', inl e) => (w', inl e)
  | (w', inr x) => f x w'
  end.

Definition raise {A : Type} (e : exn) : M A := fun w => (w, inl e).

(** [try: body finally: fin] *)
Definition try_finally {A : Type} (body : M A) (fin : M unit) : M A := fun w =>
  let '(w1, r) := body w in
  match fin w1 with
  | (w2, inl e) => (w2, inl e)
  | (w2, inr _) => (w2, r)
  end.

(** [try: body except StorageNoSuchKeyError: handler] *)
Definition except_no_such_key {A : Type} (body handler : M A) : M A := fun w =>
  match body w with
  | (w1, inl StorageNoSuchKeyError) => handler w1
  | r => r
  end.

Definition reads {A : Type} (f : world -> A) : M A := fun w => (w, inr (f w)).

Definition modify (f : world -> world) : M unit := fun w => (f w, inr tt).

Fixpoint for_each {A : Type} (f : A -> M unit) (l : list A) : M unit :=
  match l with
  | [] => mret tt
  | x :: l' => f x;; for_each f l'
  end.

(** [list(enumerate(l))] *)
Fixpoint enumerate_from {A : Type} (i : Z) (l : list A) : list (Z * A) :=
  match l with
  | [] => []
  | x :: l' => (i, x) :: enumerate_from (i + 1) l'
  end.

Section Operations.

Variable E : env.

Definition call (c : ext) : M unit := fun w =>
  match raises E c with
  | Some e => (w, inl e)
  | None => (w, inr tt)
  end.

(** [storage.head_object(bucket, key)] *)
Definition head_object (key : string) : M unit := fun w =>
  if bool_decide (key ∈ objects w) then (w, inr tt)
  else (w, inl StorageNoSuchKeyError).

(** [storage.upload_file(file_name, bucket, key)] *)
Definition store (key : string) (w : world) : world :=
  mk_world ({[key]} ∪ objects w) (uploaded w ++ [key])
           (dirs w) (cwd w) (made w) (ran w).

Definition upload_file (file key : string) : M unit :=
  call (put_file file key);; modify (store key).

(** [tempfile.mkdtemp()]: a directory that did not exist before. *)
Definition tmp_name (n : nat) : string := "/tmp/tmp" +:+ str_int (Z.of_nat n).

Definition mkdtemp : M string := fun w =>
  let d := tmp_name (made w) in
  (mk_world (objects w) (uploaded w) ({[d]} ∪ dirs w) (cwd w)
            (S (made w)) (ran w), inr d).

Definition getcwd : M string := reads cwd.

Definition set_cwd (d : string) (w : world) : world :=
  mk_world (objects w) (uploaded w) (dirs w) d (made w) (ran w).

Definition chdir (d : string) : M unit := modify (set_cwd d).

(** [sp.run(cmd, capture_output=True)]: the exit status is returned, not
    checked. *)
Definition log_run (cmd : list string) (w : world) : world :=
  mk_world (objects w) (uploaded w) (dirs w) (cwd w) (made w) (ran w ++ [cmd]).

Definition sp_run (cmd : list string) : M Z :=
  call (spawn cmd);; modify (log_run cmd);; mret (returncode E cmd).

(** [proc.check_returncode()] *)
Definition check_returncode (status : Z) : M unit :=
  if Z.eqb status 0 then mret tt else raise CalledProcessError.

(** [assert b] *)
Definition assert (b : bool) : M unit :=
  if b then mret tt else raise AssertionError.

(** [force_delete_local_path] of [utils.py], on a directory. *)
Definition remove_dir (path : string) (w : world) : world :=
  mk_world (objects w) (uploaded w) (dirs w ∖ {[path]}) (cwd w)
           (made w) (ran w).

Definition force_delete_local_path (path : string) : M unit :=
  modify (remove_dir path).

(** ** [gem_indexer] *)

Definition gem_indexer (fasta_chunk_id chunk_id : Z) : M unit :=
  let gem_index_filename := os_path_join (str_int fasta_chunk_id +:+ ".gem") [] in
  skipped ← except_no_such_key
              (head_object ("gem/" +:+ gem_index_filename);; mret true)
              (mret false);
  if skipped : bool then mret tt else
  tmp_dir ← mkdtemp;
  pwd ← getcwd;
  chdir tmp_dir;;
  try_finally
    (let fasta_chunk_filename := "chunk_" +:+ str_int chunk_id +:+ ".fasta" in
     call (fetch_fasta_chunk chunk_id fasta_chunk_filename);;
     call (getsize fasta_chunk_filename);;
     (* [gem_index_filename.replace(".gem", "")] is the decimal id again *)
     out ← sp_run ["gem-indexer"; "--input"; fasta_chunk_filename;
                   "--threads"; str_int (cpu_count E);
                   "-o"; str_int fasta_chunk_id];
     assert (Z.eqb out 1);;
     upload_file gem_index_filename ("gem/" +:+ gem_index_filename);;
     call (getsize gem_index_filename);;
     mret tt)
    (chdir pwd;; force_delete_local_path tmp_dir).

(** ** [align_mapper] *)

Definition gem_mapper_key (pp : PipelineParameters) (run : string)
           (fasta_chunk_id fastq_chunk_id : Z) (suffix : string) : string :=
  os_path_join (tmp_prefix pp)
    [run; "gem-mapper";
     "fq" +:+ str_int fastq_chunk_id; "fa" +:+ str_int fasta_chunk_id;
     sra_accession pp +:+ suffix].

Definition map_index_key pp run fasta_chunk_id fastq_chunk_id : string :=
  gem_mapper_key pp run fasta_chunk_id fastq_chunk_id "_map.index.txt.bz2".

Definition filtered_map_key pp run fasta_chunk_id fastq_chunk_id : string :=
  gem_mapper_key pp run fasta_chunk_id fastq_chunk_id "_filt_wline_no.map.bz2".

Definition align_script : string :=
  "/function/bin/map_index_and_filter_map_file_cmd_awsruntime.sh".

Definition align_cmd (pp : PipelineParameters)
           (fasta_chunk_id fastq_chunk : Z) : list string :=
  [align_script; str_int fasta_chunk_id +:+ ".gem";
   "chunk_" +:+ str_int fastq_chunk +:+ ".fastq";
   "not-used"; base_name pp; "s3"; "single-end"].

Definition align_mapper (pp : PipelineParameters) (run : string)
           (fasta_chunk_id fasta_chunk fastq_chunk_id fastq_chunk : Z)
  : M (Z * Z * string * string) :=
  let mapper_id :=
    "fa" +:+ str_int fasta_chunk_id +:+ "-fq" +:+ str_int fastq_chunk_id in
  let map_index_key := map_index_key pp run fasta_chunk_id fastq_chunk_id in
  let filtered_map_key :=
    filtered_map_key pp run fasta_chunk_id fastq_chunk_id in
  let keys := (fastq_chunk_id, fasta_chunk_id, map_index_key, filtered_map_key) in
  skipped ← except_no_such_key
              (head_object map_index_key;;
               head_object filtered_map_key;;
               mret true)
              (mret false);
  if skipped : bool then mret keys else
  tmp_dir ← mkdtemp;
  pwd ← getcwd;
  chdir tmp_dir;;
  try_finally
    (let fastq_chunk_filename := "chunk_" +:+ str_int fastq_chunk +:+ ".fastq" in
     call (fetch_fastq_chunk fastq_chunk);;
     call (getsize fastq_chunk_filename);;
     let fasta_chunk_filename := "chunk_" +:+ str_int fasta_chunk +:+ ".fasta" in
     call (fetch_fasta_chunk fasta_chunk fasta_chunk_filename);;
     call (getsize fasta_chunk_filename);;
     let gem_index_filename :=
       os_path_join (str_int fasta_chunk_id +:+ ".gem") [] in
     call (download_file ("gem/" +:+ gem_index_filename) gem_index_filename);;
     call (getsize gem_index_filename);;
     out ← sp_run (align_cmd pp fasta_chunk_id fastq_chunk);
     let map_index_filename :=
       os_path_join tmp_dir [base_name pp +:+ "_map.index.txt"] in
     call (shutil_move (base_name pp +:+ "_map.index.txt") map_index_filename);;
     let filtered_map_filename :=
       os_path_join tmp_dir
         [base_name pp +:+ "_" +:+ mapper_id +:+ "_filt_wline_no.map"] in
     call (shutil_move (base_name pp +:+ "_filt_wline_no.map")
                       filtered_map_filename);;
     let zipped_map_index_filename := map_index_filename +:+ ".bz2" in
     call (zip_write zipped_map_index_filename map_index_filename);;
     let zipped_filtered_map_filename := filtered_map_filename +:+ ".bz2" in
     call (zip_write zipped_filtered_map_filename filtered_map_filename);;
     upload_file zipped_map_index_filename map_index_key;;
     call (getsize zipped_map_index_filename);;
     upload_file zipped_filtered_map_filename filtered_map_key;;
     call (getsize zipped_filtered_map_filename);;
     mret keys)
    (* [print("Cleaning up")] *)
    (mret tt).

(** ** [index_correction] *)

Definition corrected_index_key (pp : PipelineParameters) (fastq_chunk_id : Z)
  : string :=
  os_path_join (tmp_prefix pp)
    [run_id pp; "index-correction"; "fq" +:+ str_int fastq_chunk_id;
     "merged_filtered_index.txt.bz2"].

Definition index_correction (pp : PipelineParameters) (fastq_chunk_id : Z)
           (map_index_keys : list string) : M (Z * string) :=
  let set_name := "fq_" +:+ str_int fastq_chunk_id in
  pwd ← getcwd;
  let output_file := "merged_filtered_index.txt" in
  let zipped_output_file := output_file +:+ ".bz2" in
  let corrected_index_key := corrected_index_key pp fastq_chunk_id in
  skipped ← except_no_such_key
              (head_object corrected_index_key;; mret true)
              (mret false);
  if skipped : bool then mret (fastq_chunk_id, corrected_index_key) else
  input_temp_dir ← mkdtemp;
  output_temp_dir ← mkdtemp;
  try_finally
    (for_each
       (fun '(i, map_index_key) =>
          let local_compressed_map_path :=
            os_path_join input_temp_dir ["map_" +:+ str_int i +:+ ".map.bz2"] in
          call (download_file map_index_key local_compressed_map_path);;
          call (zip_extractall local_compressed_map_path);;
          call (getsize local_compressed_map_path);;
          call (os_rename
                  (os_path_join input_temp_dir
                     [base_name pp +:+ "_map.index.txt"])
                  (os_path_join input_temp_dir
                     [str_int i +:+ "_map.index.txt"]));;
          call (os_remove local_compressed_map_path))
       (enumerate_from 0 map_index_keys);;
     call os_listdir;;
     chdir output_temp_dir;;
     let intermediate_file := set_name +:+ ".intermediate.txt" in
     proc ← sp_run
       ["/function/bin/binary_reducer.sh /function/bin/merge_gem_alignment_metrics.sh 4 "
        +:+ input_temp_dir +:+ "/* > " +:+ intermediate_file];
     check_returncode proc;;
     (* [check=True] raises inside [sp.run] as [check_returncode] does *)
     proc ← sp_run
       ["/function/bin/filter_merged_index.sh " +:+ intermediate_file
        +:+ " " +:+ output_file];
     check_returncode proc;;
     check_returncode proc;;
     call os_listdir;;
     call (zip_write zipped_output_file output_file);;
     upload_file zipped_output_file corrected_index_key;;
     call (getsize zipped_output_file);;
     chdir pwd;;
     mret (fastq_chunk_id, corrected_index_key))
    (chdir pwd;;
     force_delete_local_path input_temp_dir;;
     force_delete_local_path output_temp_dir).

(** ** [filter_index_to_mpileup] *)

Definition mpileup_key (pp : PipelineParameters)
           (fasta_chunk_id fastq_chunk_id : Z) : string :=
  os_path_join (tmp_prefix pp)
    [run_id pp; "mpileups";
     "fq" +:+ str_int fastq_chunk_id; "fa" +:+ str_int fasta_chunk_id;
     base_name pp +:+ "_fa" +:+ str_int fasta_chunk_id +:+ "-fq"
       +:+ str_int fastq_chunk_id +:+ "_filt_wline_no_corrected.map"
       +:+ ".mpileup"].

Definition filter_index_to_mpileup (pp : PipelineParameters)
           (fasta_chunk_id fasta_chunk fastq_chunk_id : Z)
           (filtered_map_key corrected_index_key : string) : M string :=
  temp_dir ← mkdtemp;
  pwd ← getcwd;
  let stem := base_name pp +:+ "_fa" +:+ str_int fasta_chunk_id +:+ "-fq"
              +:+ str_int fastq_chunk_id in
  let corrected_map_file := stem +:+ "_filt_wline_no_corrected.map" in
  let mpileup_file := corrected_map_file +:+ ".mpileup" in
  let mpipleup_key := mpileup_key pp fasta_chunk_id fastq_chunk_id in
  skipped ← except_no_such_key
              (head_object mpipleup_key;; mret true)
              (mret false);
  if skipped : bool then mret mpipleup_key else
  try_finally
    (chdir temp_dir;;
     let fasta_chunk_filename := "chunk_" +:+ str_int fasta_chunk +:+ ".fasta" in
     call (fetch_fasta_chunk fasta_chunk fasta_chunk_filename);;
     call (getsize fasta_chunk_filename);;
     let bz2_filt_map_filename := posix_name filtered_map_key in
     call (download_file filtered_map_key bz2_filt_map_filename);;
     call (getsize bz2_filt_map_filename);;
     call (zip_extractall bz2_filt_map_filename);;
     call (os_remove bz2_filt_map_filename);;
     let bz2_corrected_index_filename := posix_name corrected_index_key in
     call (download_file corrected_index_key bz2_corrected_index_filename);;
     call (getsize bz2_corrected_index_filename);;
     call (zip_extractall bz2_corrected_index_filename);;
     call (os_remove bz2_corrected_index_filename);;
     call os_listdir;;
     let filt_map_filename := stem +:+ "_filt_wline_no.map" in
     let corrected_index_filename := "merged_filtered_index.txt" in
     proc ← sp_run ["/function/bin/map_file_index_correction.sh";
                    corrected_index_filename; filt_map_filename;
                    str_int (tolerance pp)];
     call os_listdir;;
     proc ← sp_run ["/function/bin/gempileup_run.sh";
                    corrected_map_file; fasta_chunk_filename];
     upload_file (corrected_map_file +:+ ".mpileup") mpipleup_key;;
     call (getsize (corrected_map_file +:+ ".mpileup"));;
     mret mpipleup_key)
    (chdir pwd;; force_delete_local_path temp_dir).

End Operations.

(** ** Sample runs *)

(** Collaborators that raise nothing; every command exits with [status]. *)
Definition quiet (status : Z) : env :=
  mk_env (fun _ => None) (fun _ => status) 4.

(** Collaborators whose first data fetch raises. *)
Definition fetch_fails : env :=
  mk_env (fun c => match c with
                   | fetch_fastq_chunk _ => Some (OSError "fetch")
                   | _ => None
                   end)
         (fun _ => 0) 4.

(** A store that holds [keys], no temporary directory, nothing uploaded. *)
Definition fresh_world (keys : list string) : world :=
  mk_world (list_to_set keys) [] ∅ "/home/worker" O [].

Definition sample_params : PipelineParameters :=
  mk_params "tmp" "run1" "SRR1" "base" 0.

(** What a stage call leaves behind. *)
Definition after {A : Type} (m : M A) (w : world) : world := fst (m w).

Definition outcome {A : Type} (m : M A) (w : world) : result A := snd (m w).

(** The call did no work: it made no working area, ran no command and
    uploaded nothing. *)
Definition idle {A : Type} (m : M A) (w : world) : Prop :=
  made (after m w) = made w /\ ran (after m w) = ran w
  /\ uploaded (after m w) = uploaded w.

(** Shape of the world after a run that found an output missing. *)
Definition recomputed (pp : PipelineParameters) (run : string)
           (fa fq fqc : Z) (w w' : world)
           (r : result (Z * Z * string * string)) : Prop :=
  made w' = S (made w)
  /\ dirs w' = {[tmp_name (made w)]} ∪ dirs w
  /\ cwd w' = tmp_name (made w)
  /\ (forall x, r = inr x ->
        x = (fq, fa, map_index_key pp run fa fq, filtered_map_key pp run fa fq)
        /\ ran w' = ran w ++ [align_cmd pp fa fqc]
        /\ uploaded w'
           = uploaded w ++ [map_index_key pp run fa fq;
                            filtered_map_key pp run fa fq]).

End Stages.

(* ===================================================================== *)
(** * Vocabulary for further properties *)
(* ===================================================================== *)

Module Completion.
Import Mpu.

(** [complete_multipart] with a client whose call may raise: [raises c]
    tells whether [s3.complete_multipart_upload] raises on the call [c].
    The call stands in the loop without a [try], so an exception ends the
    function.  The result lists the calls made, the raising one included,
    and tells whether the function returned. *)
Fixpoint complete_loop_with (raises : completion -> bool)
         (kids : list (string * string)) (parts : list part)
  : list completion * bool :=
  match kids with
  | [] => ([], true)
  | (key, id) :: kids' =>
      let '(mpu_part, remove) := scan_parts id parts in
      let c := mk_completion key id mpu_part in
      if raises c then ([c], false)
      else
        let '(calls, returned) :=
          complete_loop_with raises kids' (skipn remove parts) in
        (c :: calls, returned)
  end.

Definition complete_multipart_with (raises : completion -> bool)
           (keys mpu_ids : list string) (parts : list part)
  : list completion * bool :=
  complete_loop_with raises (combine keys mpu_ids) parts.

End Completion.

Module Census.

(** All index values that the sources yield, source after source. *)
Definition records (select : string -> list Z) (keys : list string) : list Z :=
  concat (map select keys).

(** How often an index occurs among the records. *)
Definition occurrences (l : list Z) (k : Z) : Z :=
  Z.of_nat (count_occ Z.eq_dec l k).

(** The distinct values of a list in the order of their first occurrence,
    leaving out the values already [seen]. *)
Fixpoint first_seen (seen l : list Z) : list Z :=
  match l with
  | [] => []
  | x :: l' =>
      if existsb (Z.eqb x) seen then first_seen seen l'
      else x :: first_seen (x :: seen) l'
  end.

End Census.

Module Groups.

(** The keys that [keys_by_fasta_split] files under the group id [g]. *)
Definition in_group (g k : string) : bool :=
  match FastaSplit.fasta_split k with
  | inr g' => String.eqb g g'
  | inl _ => false
  end.

(** Python's [sep.join(l)]. *)
Fixpoint join (sep : string) (l : list string) : string :=
  match l with
  | [] => ""
  | x :: l' =>
      match l' with
      | [] => x
      | _ :: _ => x +:+ sep +:+ join sep l'
      end
  end.

End Groups.

Module StageNames.
Import Stages.

(** The key under which [gem_indexer] stores the index of a reference
    chunk. *)
Definition gem_key (fasta_chunk_id : Z) : string :=
  "gem/" +:+ os_path_join (str_int fasta_chunk_id +:+ ".gem") [].

(** The command line of [gem_indexer]. *)
Definition gem_cmd (E : env) (fasta_chunk_id chunk_id : Z) : list string :=
  ["gem-indexer"; "--input"; "chunk_" +:+ str_int chunk_id +:+ ".fasta";
   "--threads"; str_int (cpu_count E); "-o"; str_int fasta_chunk_id].

(** The two shell command lines of [index_correction], for the input
    directory it made. *)
Definition merge_cmd (input_temp_dir : string) (fastq_chunk_id : Z)
  : list string :=
  ["/function/bin/binary_reducer.sh /function/bin/merge_gem_alignment_metrics.sh 4 "
   +:+ input_temp_dir +:+ "/* > "
   +:+ ("fq_" +:+ str_int fastq_chunk_id) +:+ ".intermediate.txt"].

Definition filter_cmd (fastq_chunk_id : Z) : list string :=
  ["/function/bin/filter_merged_index.sh "
   +:+ (("fq_" +:+ str_int fastq_chunk_id) +:+ ".intermediate.txt")
   +:+ " " +:+ "merged_filtered_index.txt"].

(** A run that changes nothing in the store and runs no command. *)
Definition untouched (w w' : world) : Prop :=
  objects w' = objects w /\ uploaded w' = uploaded w /\ ran w' = ran w.

End StageNames.

(* ===================================================================== *)
(** * Bin edges of the position histogram *)
(* ===================================================================== *)

Module Bins.

(** The first loop over the bin edges in [mpileup_conversion], for at most
    [fuel] rounds:
<<
    while x < max_index:
        if x < max_index:
            range_index.append(x)
        x = x + 100000
>>
    It returns [(x, range_index)], or [None] when the rounds do not suffice.
    [max_index] is the position in the last row of the file. *)
Fixpoint fill (fuel : nat) (max_index x : Z) (range_index : list Z)
  : option (Z * list Z) :=
  if x <? max_index then
    match fuel with
    | O => None
    | S fuel' =>
        let range_index :=
          if x <? max_index then range_index ++ [x] else range_index in
        fill fuel' max_index (x + 100000) range_index
    end
  else Some (x, range_index).

(** A number of rounds that suffices for [max_index]. *)
Definition rounds (max_index : Z) : nat := Z.to_nat (max_index / 100000 + 1).

(** [range_index] as [mpileup_conversion] builds it:
<<
    range_index = []
    x = 0
    while x < max_index: ...
    x = x + (max_index - x)
    range_index.append(x)
>> *)
Definition range_index (max_index : Z) : option (list Z) :=
  match fill (rounds max_index) max_index 0 [] with
  | Some (x, range_index) => Some (range_index ++ [x + (max_index - x)])
  | None => None
  end.

(** The intervals that [pd.cut(df["1"], range_index)] forms: one for each
    pair of neighbouring edges, open on the left and closed on the right. *)
Definition bins (edges : list Z) : list (Z * Z) := combine edges (tl edges).

Definition in_bin (p : Z) (b : Z * Z) : bool := (fst b <? p) && (p <=? snd b).

End Bins.

(* ===================================================================== *)
(** * The reduce step *)
(* ===================================================================== *)

Module Reduce.
Import Stages.

(** What a call of [reduce_function] can end with instead of a result: the
    [ValueError] it makes of any failure of a query, or whatever
    [s3.upload_part] raises. *)
Inductive error : Type :=
| ValueError (msg : string)
| UploadError.

(** An event of the payload stream of S3 SELECT; only an event with a
    ["Records"] entry carries data, given here as the decoded text. *)
Inductive event : Type :=
| Records (payload : string)
| NoRecords.

(** The S3 client and the merge script as [reduce_function] uses them.
    A query or an upload that raises gives [None]. *)
Record client : Type := mk_client {
  select_object_content : string -> string -> option (list event);
  communicate : string -> string;
  upload_part : string -> string -> string -> Z -> option string
}.

(** One call of [s3.upload_part(Body, Bucket, Key, UploadId, PartNumber)]. *)
Record sent : Type := mk_sent {
  sent_body : string;
  sent_key : string;
  sent_upload : string;
  sent_number : Z
}.

Record state : Type := mk_state {
  cwd : string;
  script_inputs : list string;
  uploads : list sent
}.

(** ["SELECT * ... BETWEEN %s AND %s" % (range["start"], range["end"])] *)
Definition expression (range : Balancer.PartitionRange) : string :=
  "SELECT * FROM s3object s WHERE cast(s._2 as int) BETWEEN "
  +:+ str_int (Balancer.range_start range) +:+ " AND "
  +:+ str_int (Balancer.range_end range).

(** [for event in resp["Payload"]: if "Records" in event:
       mpileup_data = mpileup_data + records] *)
Fixpoint read_events (events : list event) (mpileup_data : string) : string :=
  match events with
  | [] => mpileup_data
  | Records records :: events' => read_events events' (mpileup_data +:+ records)
  | NoRecords :: events' => read_events events' mpileup_data
  end.

(** [for k in keys: try: resp = s3.select_object_content(...)
                    except: raise ValueError("ERROR IN KEY: " + k) ...] *)
Fixpoint select_keys (c : client) (expression : string) (keys : list string)
         (mpileup_data : string) : error + string :=
  match keys with
  | [] => inr mpileup_data
  | k :: keys' =>
      match select_object_content c k expression with
      | None => inl (ValueError ("ERROR IN KEY: " +:+ k))
      | Some resp => select_keys c expression keys' (read_events resp mpileup_data)
      end
  end.

Definition reduce_function (c : client) (keys : list string)
           (range : Balancer.PartitionRange) (mpu_id : string) (n_part : Z)
           (mpu_key : string) (st : state) : state * (error + Mpu.part) :=
  (* [wd = os.getcwd(); os.chdir("/tmp")] *)
  let st := mk_state "/tmp" (script_inputs st) (uploads st) in
  match select_keys c (expression range) keys "" with
  | inl e => (st, inl e)
  | inr mpileup_data =>
      let sinple_out := communicate c mpileup_data in
      let st := mk_state (cwd st) (script_inputs st ++ [mpileup_data])
                         (uploads st) in
      match upload_part c sinple_out mpu_key mpu_id n_part with
      | None => (st, inl UploadError)
      | Some etag =>
          (mk_state (cwd st) (script_inputs st)
                    (uploads st ++ [mk_sent sinple_out mpu_key mpu_id n_part]),
           inr (Mpu.mk_part n_part etag mpu_id))
      end
  end.

(** *** Vocabulary *)

(** The record payloads among the events of a response. *)
Fixpoint payloads (events : list event) : list string :=
  match events with
  | [] => []
  | Records p :: events' => p :: payloads events'
  | NoRecords :: events' => payloads events'
  end.

(** The record payloads that the queries for [keys] deliver, key after
    key. *)
Definition delivered (c : client) (expression : string) (keys : list string)
  : list string :=
  flat_map (fun k => match select_object_content c k expression with
                     | Some resp => payloads resp
                     | None => []
                     end) keys.

Definition joined (l : list string) : string := fold_right String.append "" l.

(** The query for [k] answers. *)
Definition answers (c : client) (expression : string) (k : string) : Prop :=
  select_object_content c k expression <> None.

(** A run of [reduce_function] for the upload [mpu_id], on the keys, the
    range and the part number of [job], returned the part [p]. *)
Definition returned (c : client) (mpu_id mpu_key : string)
           (job : list string * Balancer.PartitionRange * Z) (p : Mpu.part)
  : Prop :=
  let '(keys, range, n_part) := job in
  exists st, snd (reduce_function c keys range mpu_id n_part mpu_key st) = inr p.

(** A client whose queries answer with two events for every key but
    ["bad"], whose script puts [">"] in front of its input and whose uploads
    succeed. *)
Definition sample_client : client :=
  mk_client (fun k _ => if String.eqb k "bad" then None
                        else Some [Records (k +:+ ";"); NoRecords])
            (fun data => ">" +:+ data)
            (fun _ _ _ _ => Some "etag").

End Reduce.

(* ===================================================================== *)
(** * Keys of the multipart uploads *)
(* ===================================================================== *)

Module MultipartKeys.
Import Stages.

(** [range(n)] *)
Definition range (n : Z) : list Z := map Z.of_nat (seq 0 (Z.to_nat n)).

(** [f"tmp/{pipeline_params.run_id}/multipart_uploads/fa{i}.sinple"] *)
Definition multipart_key (run_id : string) (i : Z) : string :=
  "tmp/" +:+ run_id +:+ "/multipart_uploads/fa" +:+ str_int i +:+ ".sinple".

(** [(fasta_chunk_range is None) or (i in fasta_chunk_range)] *)
Definition wanted (fasta_chunk_range : option (list Z)) (i : Z) : bool :=
  match fasta_chunk_range with
  | None => true
  | Some r => existsb (Z.eqb i) r
  end.

(** [create_multipart_keys], from the fields of the parameters it reads. *)
Definition create_multipart_keys (run_id : string) (fasta_chunks : Z)
           (fasta_chunk_range : option (list Z)) : list string :=
  fold_left (fun keys i =>
               if wanted fasta_chunk_range i
               then keys ++ [multipart_key run_id i] else keys)
            (range fasta_chunks) [].

End MultipartKeys.

(* ===================================================================== *)
(** * Properties of the multipart completion *)
(* ===================================================================== *)

Section MpuFacts.
Import Mpu.

Lemma scan_parts_run (id : string) (g rest : list part) :
  Forall (fun p => mpu_id p = id) g ->
  Forall (fun p => mpu_id p <> id) rest ->
  scan_parts id (g ++ rest) = (map strip g, length g).
Proof.
  intros Hg Hrest. induction Hg as [|p g Hp Hg IH]; simpl.
  - destruct Hrest as [|q rest Hq Hrest]; simpl; [reflexivity|].
    destruct (String.eqb_spec id (mpu_id q)) as [Heq|_]; [|reflexivity].
    now symmetry in Heq.
  - rewrite IH. subst id. now rewrite String.eqb_refl.
Qed.

Lemma own_parts_app (id : string) (l1 l2 : list part) :
  own_parts id (l1 ++ l2) = own_parts id l1 ++ own_parts id l2.
Proof. unfold own_parts. now rewrite List.filter_app, List.map_app. Qed.

Lemma own_parts_same (id : string) (g : list part) :
  Forall (fun p => mpu_id p = id) g -> own_parts id g = map strip g.
Proof.
  unfold own_parts. induction 1 as [|p g Hp _ IH]; simpl; [reflexivity|].
  subst id. rewrite String.eqb_refl. simpl. now rewrite IH.
Qed.

Lemma own_parts_other (id : string) (l : list part) :
  Forall (fun p => mpu_id p <> id) l -> own_parts id l = [].
Proof.
  unfold own_parts. induction 1 as [|p l Hp _ IH]; simpl; [reflexivity|].
  destruct (String.eqb_spec id (mpu_id p)) as [Heq|_]; [|exact IH].
  now symmetry in Heq.
Qed.

(** The parts of the groups listed for other upload ids. *)
Lemma groups_other (id : string) (ids : list string) (groups : list (list part)) :
  ~ In id ids ->
  Forall2 group_for ids groups ->
  Forall (fun p => mpu_id p <> id) (concat groups).
Proof.
  intros Hnot H. induction H as [|i g ids groups [Hi _] _ IH]; simpl.
  - constructor.
  - apply List.Forall_app. split.
    + eapply List.Forall_impl; [|exact Hi]. simpl. intros p Hp Heq.
      apply Hnot. left. congruence.
    + apply IH. intros Hin. apply Hnot. now right.
Qed.

Lemma complete_loop_grouped (keys ids : list string) (groups : list (list part)) :
  length keys = length ids ->
  List.NoDup ids ->
  Forall2 group_for ids groups ->
  complete_loop (combine keys ids) (concat groups)
  = grouped_calls keys ids groups.
Proof.
  intros Hlen Hnd H. revert keys Hlen.
  induction H as [|i g ids groups Hg H IH]; intros keys Hlen.
  - destruct keys; [reflexivity|discriminate].
  - destruct keys as [|key keys]; [discriminate|]. simpl.
    inversion Hnd as [|? ? Hnot Hnd']; subst.
    rewrite (scan_parts_run i g (concat groups));
      [|apply Hg|now apply groups_other with ids].
    rewrite List.skipn_app, List.skipn_all, Nat.sub_diag. simpl.
    f_equal. apply IH; [assumption|]. simpl in Hlen. lia.
Qed.

Lemma grouped_calls_ids (keys ids : list string) (groups : list (list part)) :
  length keys = length ids ->
  Forall2 group_for ids groups ->
  map UploadId (grouped_calls keys ids groups) = ids
  /\ map Key (grouped_calls keys ids groups) = keys.
Proof.
  intros Hlen H. revert keys Hlen.
  induction H as [|i g ids groups Hg H IH]; intros keys Hlen.
  - destruct keys; [split; reflexivity|discriminate].
  - destruct keys as [|key keys]; [discriminate|]. simpl.
    destruct (IH keys) as [H1 H2]; [simpl in Hlen; lia|].
    now rewrite H1, H2.
Qed.

(** Each listed call carries exactly the parts of its upload id, also when
    the groups of earlier uploads precede it in the shared list. *)
Lemma grouped_calls_own (before : list part) (keys ids : list string)
      (groups : list (list part)) :
  List.NoDup ids ->
  Forall2 group_for ids groups ->
  Forall (fun p => ~ In (mpu_id p) ids) before ->
  Forall (fun c => Parts c = own_parts (UploadId c) (before ++ concat groups)
                   /\ ascending (Parts c))
         (grouped_calls keys ids groups).
Proof.
  intros Hnd H. revert before keys.
  induction H as [|i g ids groups Hg H IH]; intros before keys Hbefore.
  - destruct keys; constructor.
  - destruct keys as [|key keys]; [constructor|]. simpl.
    inversion Hnd as [|? ? Hnot Hnd']; subst.
    constructor.
    + simpl. split; [|apply Hg].
      rewrite !own_parts_app.
      rewrite (own_parts_other i before).
      * rewrite (own_parts_same i g) by apply Hg.
        rewrite (own_parts_other i (concat groups)).
        -- now rewrite List.app_nil_r.
        -- now apply groups_other with ids.
      * eapply List.Forall_impl; [|exact Hbefore]. simpl.
        intros p Hp Heq. apply Hp. now left.
    + specialize (IH Hnd' (before ++ g) keys).
      rewrite <- List.app_assoc in IH. apply IH.
      apply List.Forall_app. split.
      * eapply List.Forall_impl; [|exact Hbefore]. simpl.
        intros p Hp Hin. apply Hp. now right.
      * destruct Hg as [Hg _].
        eapply List.Forall_impl; [|exact Hg]. simpl.
        intros p Hp Hin. now subst i.
Qed.

(** C1, counterexample: on the interleaved arrival order
    [U1P1, U2P1, U1P2, U3P1, U2P2, U3P2] the completion step does not
    finalise every upload with exactly its own parts; upload U1 is completed
    with part 1 only. *)
Lemma complete_multipart_interleaved_fails :
  ~ finalizes_grouped ["k1"; "k2"; "k3"] ["U1"; "U2"; "U3"] interleaved_parts.
Proof.
  intros [_ H]. apply List.Forall_inv in H. destruct H as [H _].
  apply Permutation.Permutation_length in H. vm_compute in H. discriminate.
Qed.

(** C1, amended: when the shared list is the concatenation, in the order of
    [mpu_ids], of one group per upload (every part of a group carries that
    upload's id, part numbers ascending) and the upload ids are pairwise
    distinct, [complete_multipart] finalises every upload, under its key,
    with exactly the parts carrying its id, in ascending part-number order;
    [finish] does the same for the upload whose group comes first. *)
Theorem complete_multipart_pregrouped
        (keys ids : list string) (groups : list (list part)) :
  length keys = length ids ->
  List.NoDup ids ->
  Forall2 group_for ids groups ->
  finalizes_grouped keys ids (concat groups)
  /\ map Key (complete_multipart keys ids (concat groups)) = keys
  /\ complete_multipart keys ids (concat groups) = grouped_calls keys ids groups
  /\ match keys, ids with
     | key :: _, id :: _ =>
         Parts (finish key id (concat groups)) = own_parts id (concat groups)
         /\ ascending (Parts (finish key id (concat groups)))
     | _, _ => True
     end.
Proof.
  intros Hlen Hnd H.
  assert (Hcalls : complete_multipart keys ids (concat groups)
                   = grouped_calls keys ids groups)
    by now apply complete_loop_grouped.
  destruct (grouped_calls_ids keys ids groups Hlen H) as [Hids Hkeys].
  unfold finalizes_grouped. rewrite Hcalls.
  repeat split; try assumption.
  - pose proof (grouped_calls_own [] keys ids groups Hnd H (List.Forall_nil _)) as Hown.
    simpl in Hown. eapply List.Forall_impl; [|exact Hown]. simpl.
    intros c [Hc Hasc]. split; [now rewrite Hc|assumption].
  - destruct keys as [|key keys]; [exact I|].
    destruct ids as [|id ids]; [exact I|].
    inversion H as [|? g ? groups' Hg H']; subst.
    inversion Hnd as [|? ? Hnot Hnd']; subst. simpl.
    unfold finish.
    rewrite (scan_parts_run id g (concat groups'));
      [|apply Hg|now apply groups_other with ids].
    simpl. split; [|apply Hg].
    rewrite own_parts_app, (own_parts_same id g) by apply Hg.
    rewrite (own_parts_other id (concat groups')).
    + now rewrite List.app_nil_r.
    + now apply groups_other with ids.
Qed.

(** The theorem applied to three uploads of two parts each, listed group
    after group. *)
Lemma complete_multipart_pregrouped_witness :
  finalizes_grouped ["k1"; "k2"; "k3"] ["U1"; "U2"; "U3"]
    (concat [ [mk_part 1 "e11" "U1"; mk_part 2 "e12" "U1"];
              [mk_part 1 "e21" "U2"; mk_part 2 "e22" "U2"];
              [mk_part 1 "e31" "U3"; mk_part 2 "e32" "U3"] ]).
Proof.
  apply (complete_multipart_pregrouped
           ["k1"; "k2"; "k3"] ["U1"; "U2"; "U3"]
           [ [mk_part 1 "e11" "U1"; mk_part 2 "e12" "U1"];
             [mk_part 1 "e21" "U2"; mk_part 2 "e22" "U2"];
             [mk_part 1 "e31" "U3"; mk_part 2 "e32" "U3"] ]).
  - reflexivity.
  - repeat constructor; simpl; intuition discriminate.
  - repeat constructor; simpl; lia.
Defined.

End MpuFacts.

(* ===================================================================== *)
(** * Properties of the partition balancer *)
(* ===================================================================== *)

Section BalancerFacts.
Import Balancer.

(** ** The counting loop *)

Lemma dict_get_set_same (d : dict) (k v default : Z) :
  dict_get (dict_set d k v) k default = v.
Proof.
  induction d as [|[k' v'] d IH]; simpl.
  - now rewrite Z.eqb_refl.
  - destruct (Z.eqb_spec k k') as [->|Hne]; simpl.
    + now rewrite Z.eqb_refl.
    + destruct (Z.eqb_spec k k'); [contradiction|exact IH].
Qed.

Lemma dict_set_set (d : dict) (k v v' : Z) :
  dict_set (dict_set d k v) k v' = dict_set d k v'.
Proof.
  induction d as [|[k' w] d IH]; simpl.
  - now rewrite Z.eqb_refl.
  - destruct (Z.eqb_spec k k') as [->|Hne]; simpl.
    + now rewrite Z.eqb_refl.
    + destruct (Z.eqb_spec k k'); [contradiction|now rewrite IH].
Qed.

(** Counting [n >= 1] records that carry the same index. *)
Lemma count_records_repeat (n : nat) (d : dict) (k : Z) :
  count_records d (repeat k (S n))
  = dict_set d k (dict_get d k 0 + Z.of_nat (S n)).
Proof.
  revert d. induction n as [|n IH]; intros d.
  - reflexivity.
  - change (count_records d (repeat k (S (S n))))
      with (count_records (dict_set d k (dict_get d k 0 + 1)) (repeat k (S n))).
    rewrite IH, dict_get_set_same, dict_set_set. f_equal. lia.
Qed.

Lemma count_records_app (d : dict) (l1 l2 : list Z) :
  count_records d (l1 ++ l2) = count_records (count_records d l1) l2.
Proof. apply List.fold_left_app. Qed.

Lemma count_keys_single (select : string -> list Z) (key : string) :
  count_keys select [key] = count_records [] (select key).
Proof. reflexivity. Qed.

Lemma count_keys_empty (select : string -> list Z) (keys : list string) :
  (forall key, In key keys -> select key = []) ->
  count_keys select keys = [].
Proof.
  unfold count_keys. induction keys as [|key keys IH]; intros H; simpl.
  - reflexivity.
  - rewrite (H key) by now left. simpl. apply IH.
    intros k Hk. apply H. now right.
Qed.

(** ** What the counting loop leaves in [index] *)

Lemma bind_index_app (index : option Z) (l1 l2 : list Z) :
  bind_index index (l1 ++ l2) = bind_index (bind_index index l1) l2.
Proof. apply List.fold_left_app. Qed.

Lemma bind_index_last (index : option Z) (l : list Z) (r : Z) :
  bind_index index (l ++ [r]) = Some r.
Proof. now rewrite bind_index_app. Qed.

Lemma last_index_single (select : string -> list Z) (key : string) :
  last_index select [key] = bind_index None (select key).
Proof. reflexivity. Qed.

(** ** The walk *)

(** A first key that fits binds [index]: what the first loop left in it
    is not read. *)
Lemma walk_start (MAX k0 c0 : Z) (rest : dict) (wd : list Z)
      (index : option Z) :
  c0 < MAX ->
  walk MAX ((k0, c0) :: rest) wd 0 index
  = walk MAX rest wd (0 + c0) (Some k0).
Proof.
  intros Hc. simpl. now destruct (Z.ltb_spec (0 + c0) MAX); [|lia].
Qed.

(** What was appended before does not influence the rest of the walk. *)
Lemma walk_acc (MAX : Z) (items : dict) (wd : list Z) (n : Z) (index : option Z) :
  walk MAX items wd n index
  = match walk MAX items [] n index with
    | inl e => inl e
    | inr new => inr (wd ++ new)
    end.
Proof.
  revert wd n index. induction items as [|[k c] items IH]; intros wd n index.
  - simpl. now rewrite List.app_nil_r.
  - simpl. destruct (n + c <? MAX).
    + apply IH.
    + destruct index as [i|]; [|reflexivity].
      rewrite (IH (wd ++ [i])), (IH [i]).
      destruct (walk MAX items [] 0 (Some i)); [reflexivity|].
      now rewrite <- List.app_assoc.
Qed.

(** On keys in ascending order the walk succeeds once [index] is bound,
    and the boundaries it appends never decrease. *)
Lemma walk_ascending (MAX hi : Z) (items : dict) (n i : Z) :
  StronglySorted Z.lt (i :: map fst items) ->
  Forall (fun k => k <= hi) (i :: map fst items) ->
  exists ends,
    walk MAX items [] n (Some i) = inr ends /\
    StronglySorted Z.le (i :: ends) /\
    Forall (fun b => b <= hi) ends.
Proof.
  revert n i. induction items as [|[k c] items IH]; intros n i Hs Hhi.
  - exists []. simpl. repeat split; repeat constructor.
  - simpl in Hs, Hhi.
    apply StronglySorted_inv in Hs. destruct Hs as [Hs Hi].
    apply List.Forall_inv in Hi as Hik.
    apply List.Forall_inv_tail in Hi.
    apply List.Forall_inv in Hhi as Hihi.
    apply List.Forall_inv_tail in Hhi.
    simpl. destruct (n + c <? MAX).
    + destruct (IH (n + c) k Hs Hhi) as (ends & Hw & Hsorted & Hle).
      exists ends. split; [exact Hw|]. split; [|exact Hle].
      apply StronglySorted_inv in Hsorted. destruct Hsorted as [Hsorted Hk].
      constructor; [exact Hsorted|].
      eapply List.Forall_impl; [|exact Hk]. simpl. intros b Hb. lia.
    + apply StronglySorted_inv in Hs as Hs'. destruct Hs' as [Hs' _].
      destruct (IH 0 i) as (ends & Hw & Hsorted & Hle).
      * constructor; assumption.
      * constructor; [exact Hihi|]. now apply List.Forall_inv_tail in Hhi.
      * exists (i :: ends). rewrite walk_acc, Hw. simpl.
        split; [reflexivity|]. split.
        -- constructor; [exact Hsorted|].
           constructor; [lia|].
           apply StronglySorted_inv in Hsorted. apply Hsorted.
        -- constructor; assumption.
Qed.

End BalancerFacts.

Section RangeFacts.
Import Balancer.

(** ** Counting records inside ranges *)

Lemma range_count_split (d : dict) (a m b : Z) :
  a <= m + 1 -> m <= b ->
  range_count d (mk_range a m) + range_count d (mk_range (m + 1) b)
  = range_count d (mk_range a b).
Proof.
  intros Ham Hmb. unfold range_count, in_range. simpl.
  induction d as [|[k c] d IH]; simpl; [reflexivity|].
  destruct (Z.leb_spec a k), (Z.leb_spec k m), (Z.leb_spec (m + 1) k),
    (Z.leb_spec k b); simpl; try lia.
Qed.

Lemma range_count_all (d : dict) (a b : Z) :
  Forall (fun k => a <= k <= b) (map fst d) ->
  range_count d (mk_range a b) = total d.
Proof.
  unfold range_count, total, in_range. simpl.
  induction d as [|[k c] d IH]; simpl; intros H; [reflexivity|].
  apply List.Forall_inv in H as Hk. apply List.Forall_inv_tail in H.
  simpl in Hk.
  destruct (Z.leb_spec a k), (Z.leb_spec k b); simpl; try lia.
  now rewrite IH.
Qed.

Lemma last_cons (l : list Z) (b lo : Z) :
  List.last (b :: l) lo = List.last l b.
Proof.
  revert b lo. induction l as [|e l IH]; intros b lo; [reflexivity|].
  change (List.last (b :: e :: l) lo) with (List.last (e :: l) lo).
  now rewrite !IH.
Qed.

Lemma last_ge (l : list Z) (b d : Z) :
  b <= d -> Forall (Z.le b) l -> b <= List.last l d.
Proof.
  revert d. induction l as [|e l IH]; intros d Hd Hb; [simpl; lia|].
  rewrite last_cons. apply IH.
  - now apply List.Forall_inv in Hb.
  - now apply List.Forall_inv_tail in Hb.
Qed.

(** The ranges that follow a boundary [lo] hold the records between [lo]
    and the last boundary. *)
Lemma ranges_from_count (d : dict) (ends : list Z) (lo : Z) :
  StronglySorted Z.le (lo :: ends) ->
  zsum (map (range_count d) (ranges_from lo ends))
  = range_count d (mk_range (lo + 1) (List.last ends lo)).
Proof.
  revert lo. induction ends as [|b ends IH]; intros lo Hs.
  - simpl. unfold range_count, in_range. simpl.
    induction d as [|[k c] d IHd]; simpl; [reflexivity|].
    destruct (Z.leb_spec (lo + 1) k), (Z.leb_spec k lo); simpl; lia.
  - apply StronglySorted_inv in Hs. destruct Hs as [Hs Hlo].
    apply List.Forall_inv in Hlo as Hlob.
    change (ranges_from lo (b :: ends))
      with (mk_range (lo + 1) b :: ranges_from b ends).
    simpl zsum. simpl map. simpl fold_right.
    rewrite (IH b Hs).
    rewrite last_cons.
    apply range_count_split; [lia|].
    apply last_ge; [lia|]. apply StronglySorted_inv in Hs. apply Hs.
Qed.

(** A key falls into one of the ranges that follow [lo] exactly when it
    lies between [lo] and the last boundary. *)
Lemma ranges_from_hits (ends : list Z) (lo k : Z) :
  StronglySorted Z.le (lo :: ends) ->
  hits (ranges_from lo ends) k
  = if (lo <? k) && (k <=? List.last ends lo) then 1%nat else 0%nat.
Proof.
  revert lo. induction ends as [|b ends IH]; intros lo Hs.
  - simpl. destruct (Z.ltb_spec lo k), (Z.leb_spec k lo); simpl; (reflexivity || lia).
  - apply StronglySorted_inv in Hs. destruct Hs as [Hs Hlo].
    apply List.Forall_inv in Hlo as Hlob.
    assert (Hlast : b <= List.last ends b).
    { apply last_ge; [lia|]. apply StronglySorted_inv in Hs. apply Hs. }
    rewrite last_cons.
    change (hits (ranges_from lo (b :: ends)) k)
      with (length (if in_range (mk_range (lo + 1) b) k
                    then mk_range (lo + 1) b
                         :: List.filter (fun r => in_range r k) (ranges_from b ends)
                    else List.filter (fun r => in_range r k) (ranges_from b ends))).
    specialize (IH b Hs). unfold hits in IH. unfold in_range at 1. simpl.
    destruct (Z.leb_spec (lo + 1) k), (Z.leb_spec k b); simpl; rewrite IH;
      destruct (Z.ltb_spec b k), (Z.ltb_spec lo k),
        (Z.leb_spec k (List.last ends b)); simpl; (reflexivity || lia).
Qed.

Lemma ranges_from_contiguous (ends : list Z) (lo : Z) :
  contiguous (ranges_from lo ends).
Proof.
  revert lo. induction ends as [|b ends IH]; intros lo; [exact I|].
  destruct ends as [|b' ends]; [exact I|].
  split; [reflexivity|]. apply (IH b).
Qed.

Lemma ranges_of_contiguous (dmin : Z) (ends : list Z) :
  contiguous (ranges_of dmin ends).
Proof.
  destruct ends as [|b ends]; [exact I|].
  destruct ends as [|b' ends]; [exact I|].
  split; [reflexivity|]. apply (ranges_from_contiguous (b' :: ends) b).
Qed.

(** ** Ascending keys *)

Lemma domain_min_ascending (k0 c0 : Z) (rest : dict) :
  StronglySorted Z.lt (k0 :: map fst rest) ->
  domain_min ((k0, c0) :: rest) = k0.
Proof.
  intros Hs. apply StronglySorted_inv in Hs. destruct Hs as [_ H].
  simpl. induction (map fst rest) as [|k ks IH]; simpl; [reflexivity|].
  apply List.Forall_inv in H as Hk. apply List.Forall_inv_tail in H.
  rewrite Z.min_l by lia. now apply IH.
Qed.

Lemma ascending_last_max (ks : list Z) (k0 : Z) :
  StronglySorted Z.lt (k0 :: ks) ->
  Forall (fun k => k0 <= k <= List.last ks k0) (k0 :: ks).
Proof.
  revert k0. induction ks as [|k ks IH]; intros k0 Hs.
  - repeat constructor; simpl; lia.
  - apply StronglySorted_inv in Hs. destruct Hs as [Hs H].
    apply List.Forall_inv in H as Hk.
    specialize (IH k Hs). rewrite last_cons.
    apply List.Forall_inv in IH as Hklast.
    constructor; [lia|].
    eapply List.Forall_impl; [|exact IH]. simpl. intros x Hx. lia.
Qed.

Lemma last_fst (rest : dict) (kc : Z * Z) :
  fst (List.last rest kc) = List.last (map fst rest) (fst kc).
Proof.
  revert kc. induction rest as [|kc' rest IH]; intros kc; [reflexivity|].
  destruct rest as [|kc'' rest]; [reflexivity|].
  change (List.last (kc' :: kc'' :: rest) kc) with (List.last (kc'' :: rest) kc).
  change (List.last (map fst (kc' :: kc'' :: rest)) (fst kc))
    with (List.last (map fst (kc'' :: rest)) (fst kc)).
  apply IH.
Qed.

Lemma sorted_snoc (l : list Z) (x : Z) :
  StronglySorted Z.le l -> Forall (fun b => b <= x) l ->
  StronglySorted Z.le (l ++ [x]).
Proof.
  induction 1 as [|b l Hs IH Hb]; intros Hx; simpl.
  - repeat constructor.
  - apply List.Forall_inv in Hx as Hbx. apply List.Forall_inv_tail in Hx.
    constructor; [now apply IH|].
    apply List.Forall_app. split; [exact Hb|]. repeat constructor. exact Hbx.
Qed.

End RangeFacts.

Section BalancerClaims.
Import Balancer.

(** The ranges over non-decreasing boundaries that end at the largest key,
    with the first range starting at the smallest key, split the records:
    every key falls in exactly one range and the counts add up. *)
Lemma ranges_partition (d : dict) (dmin : Z) (ends : list Z) :
  ends <> [] ->
  StronglySorted Z.le (dmin :: ends) ->
  Forall (fun k => dmin <= k <= List.last ends dmin) (map fst d) ->
  (forall k, In k (map fst d) -> hits (ranges_of dmin ends) k = 1%nat)
  /\ zsum (map (range_count d) (ranges_of dmin ends)) = total d.
Proof.
  intros Hne Hs Hall. destruct ends as [|b ends]; [contradiction|]. clear Hne.
  apply StronglySorted_inv in Hs. destruct Hs as [Hs Hmin].
  apply List.Forall_inv in Hmin as Hminb.
  assert (Hlast : b <= List.last ends b).
  { apply last_ge; [lia|]. apply StronglySorted_inv in Hs. apply Hs. }
  rewrite last_cons in Hall. split.
  - intros k Hk. rewrite List.Forall_forall in Hall. specialize (Hall k Hk).
    change (hits (ranges_of dmin (b :: ends)) k)
      with (length (if in_range (mk_range dmin b) k
                    then mk_range dmin b
                         :: List.filter (fun r => in_range r k) (ranges_from b ends)
                    else List.filter (fun r => in_range r k) (ranges_from b ends))).
    pose proof (ranges_from_hits ends b k Hs) as Hh. unfold hits in Hh.
    unfold in_range at 1. simpl.
    destruct (Z.leb_spec dmin k), (Z.leb_spec k b); simpl; rewrite Hh;
      destruct (Z.ltb_spec b k), (Z.leb_spec k (List.last ends b)); simpl;
      (reflexivity || lia).
  - change (ranges_of dmin (b :: ends))
      with (mk_range dmin b :: ranges_from b ends).
    simpl map. simpl zsum.
    rewrite (ranges_from_count d ends b Hs).
    rewrite range_count_split by lia.
    now apply range_count_all.
Qed.

(** C3, counterexample: with two source objects whose index columns are
    [5] and [1], the mapping is walked in insertion order 5, 1; the only
    boundary is 1 and the single range holds one of the two records. *)
Lemma distribute_indexes_unsorted_drops :
  ~ covers MAX_INDEXES two_sources ["a"; "b"].
Proof.
  intros (ends & Hd & Hsum).
  vm_compute in Hd.
  destruct ends as [|e [|e' ends]]; try discriminate.
  injection Hd as <-. vm_compute in Hsum. discriminate.
Qed.

(** C3, amended: when the first key's count is below MAX_INDEXES and the
    count mapping lists its keys in ascending order (the walk follows the
    insertion order of the mapping; it does not sort), [distribute_indexes]
    returns boundaries that never decrease and end at the largest key; the
    ranges they form, the first one starting at the smallest key, are
    contiguous, every observed key falls in exactly one of them, and their
    record counts add up to the number of input records. *)
Theorem distribute_ascending_coverage
        (MAX : Z) (select : string -> list Z) (keys : list string)
        (k0 c0 : Z) (rest : dict) :
  keys <> [] ->
  count_keys select keys = (k0, c0) :: rest ->
  StronglySorted Z.lt (k0 :: map fst rest) ->
  c0 < MAX ->
  exists ends,
    distribute MAX select keys = inr (map PInt ends) /\
    StronglySorted Z.le ends /\
    List.last ends k0 = List.last (map fst rest) k0 /\
    let d := count_keys select keys in
    let rs := ranges_of (domain_min d) ends in
    contiguous rs /\
    (forall k, In k (map fst d) -> hits rs k = 1%nat) /\
    zsum (map (range_count d) rs) = total d.
Proof.
  intros Hkeys Hd Hs Hc.
  set (final := List.last (map fst rest) k0).
  pose proof (ascending_last_max (map fst rest) k0 Hs) as Hbounds.
  fold final in Hbounds.
  destruct (walk_ascending MAX final rest (0 + c0) k0 Hs) as (wd & Hw & Hwd & Hle).
  { eapply List.Forall_impl; [|exact Hbounds]. simpl. intros x Hx. lia. }
  exists (wd ++ [final]).
  apply StronglySorted_inv in Hwd as Hwd'. destruct Hwd' as [Hsorted Hk0].
  assert (Hends : StronglySorted Z.le (wd ++ [final])) by now apply sorted_snoc.
  assert (Hlast : List.last (wd ++ [final]) k0 = final) by apply List.last_last.
  split; [|split; [exact Hends|split; [exact Hlast|]]].
  - unfold distribute. destruct keys as [|key keys]; [contradiction|].
    rewrite Hd, walk_start by exact Hc.
    rewrite Hw, List.map_app. simpl. unfold final. now rewrite last_fst.
  - rewrite Hd. cbv zeta. rewrite (domain_min_ascending k0 c0 rest Hs).
    split; [apply ranges_of_contiguous|].
    apply ranges_partition.
    + destruct wd; discriminate.
    + constructor; [exact Hends|].
      apply List.Forall_app. split; [exact Hk0|].
      repeat constructor. apply List.Forall_inv in Hbounds. lia.
    + rewrite Hlast. exact Hbounds.
Qed.

(** The theorem applied to the mapping [{1:5, 2:5, 3:5, 4:5, 5:90}] with a
    budget of 10. *)
Lemma distribute_ascending_coverage_witness :
  exists ends,
    distribute 10 (fun _ => example_records) ["k"] = inr (map PInt ends) /\
    StronglySorted Z.le ends /\
    List.last ends 1 = 5 /\
    let d := count_keys (fun _ => example_records) ["k"] in
    let rs := ranges_of (domain_min d) ends in
    contiguous rs /\
    (forall k, In k (map fst d) -> hits rs k = 1%nat) /\
    zsum (map (range_count d) rs) = total d.
Proof.
  apply (distribute_ascending_coverage 10 (fun _ => example_records) ["k"]
           1 5 [(2, 5); (3, 5); (4, 5); (5, 90)]).
  - discriminate.
  - reflexivity.
  - repeat constructor; simpl; lia.
  - lia.
Defined.

(** ** The example of the specification *)

(** The walk on [{1:5, 2:5, 3:5, 4:5, 5:90}] with a budget of 10, step by
    step: 1 fits (5); 2 does not (5 + 5 is not below 10), the range is closed
    at 1; 3 fits; 4 does not, the range is closed at 3; 5 does not, a range is
    closed at 3 again; the last key 5 is appended. *)
Example example_walk :
  distribute 10 (fun _ => example_records) ["k"]
  = inr [PInt 1; PInt 3; PInt 3; PInt 5].
Proof. reflexivity. Qed.

(** C2, counterexample: on [{1:5, 2:5, 3:5, 4:5, 5:90}] with MAX_INDEXES = 10
    the boundaries are not [2, 5]. *)
Lemma example_boundaries_not_2_5 :
  distribute 10 (fun _ => example_records) ["k"] <> inr [PInt 2; PInt 5].
Proof. vm_compute. discriminate. Qed.

(** C2, amended: on [{1:5, 2:5, 3:5, 4:5, 5:90}] with MAX_INDEXES = 10 the
    first boundary is 1, because the test [indexes + count < MAX_INDEXES] is
    strict and keys 1 and 2 together reach the budget, so the first range
    holds key 1 alone with count 5; the last boundary is the last key, 5. *)
Theorem example_boundaries_first_last :
  count_keys (fun _ => example_records) ["k"]
  = [(1, 5); (2, 5); (3, 5); (4, 5); (5, 90)]
  /\ exists middle,
       distribute 10 (fun _ => example_records) ["k"]
       = inr (PInt 1 :: middle ++ [PInt 5])
       /\ range_count (count_keys (fun _ => example_records) ["k"])
                      (mk_range 1 1) = 5.
Proof.
  split; [reflexivity|].
  exists [PInt 3; PInt 3]. split; reflexivity.
Qed.

(** ** Inputs on which the walk goes wrong *)

Lemma count_uniform (d : dict) (k n : Z) :
  0 < n ->
  count_records d (repeat k (Z.to_nat n)) = dict_set d k (dict_get d k 0 + n).
Proof.
  intros Hn. destruct (Z.to_nat n) as [|m] eqn:Hm; [lia|].
  rewrite count_records_repeat. f_equal. lia.
Qed.

(** C4: a source with 10,000,000 records of index 1, then 19,999,999 of
    index 2, then 19,999,999 of index 3.  Key 2 does not fit after key 1, the
    range is closed at 1 and the accumulator restarts at 0 without the count
    of key 2; key 3 then fits.  The second range (2..3) holds two keys and
    39,999,998 records, above MAX_INDEXES. *)
Theorem distribute_indexes_exceeds_budget :
  let select := fun _ : string =>
    repeat 1 (Z.to_nat 10000000) ++ repeat 2 (Z.to_nat 19999999)
    ++ repeat 3 (Z.to_nat 19999999) in
  let d := count_keys select ["k"] in
  d = [(1, 10000000); (2, 19999999); (3, 19999999)]
  /\ distribute_indexes select ["k"] = inr [PInt 1; PInt 3]
  /\ ranges_of (domain_min d) [1; 3] = [mk_range 1 1; mk_range 2 3]
  /\ range_keys d (mk_range 2 3) = [2; 3]
  /\ range_count d (mk_range 2 3) = 39999998
  /\ MAX_INDEXES < 39999998.
Proof.
  intros select d.
  assert (Hd : d = [(1, 10000000); (2, 19999999); (3, 19999999)]).
  { unfold d, select. rewrite count_keys_single, !count_records_app.
    rewrite !count_uniform by lia. reflexivity. }
  split; [exact Hd|]. split.
  - unfold distribute_indexes, distribute. fold d. rewrite Hd.
    rewrite walk_start by reflexivity. reflexivity.
  - rewrite Hd. repeat split; reflexivity.
Qed.

(** C5: a source with 20,000,000 records of index 1 followed by one
    record of index 2.  The first key does not fit, and the [else] branch
    appends [index], which the second loop has not assigned yet: it still
    holds what the counting loop left in it, the last record read, 2.  The
    boundaries are [2, 2]: key 1, whose count alone reaches the budget, is
    not placed in a range of its own but shares the range 1..2 with key 2,
    20,000,001 records in all, and a second, empty range 3..2 follows. *)
Theorem distribute_indexes_first_key_stale :
  let select := fun _ : string => repeat 1 (Z.to_nat 20000000) ++ [2] in
  let d := count_keys select ["k"] in
  d = [(1, 20000000); (2, 1)]
  /\ last_index select ["k"] = Some 2
  /\ distribute_indexes select ["k"] = inr [PInt 2; PInt 2]
  /\ ranges_of (domain_min d) [2; 2] = [mk_range 1 2; mk_range 3 2]
  /\ range_keys d (mk_range 1 2) = [1; 2]
  /\ range_count d (mk_range 1 2) = 20000001
  /\ MAX_INDEXES < 20000001.
Proof.
  intros select d.
  assert (Hd : d = [(1, 20000000); (2, 1)]).
  { unfold d, select. rewrite count_keys_single, count_records_app.
    rewrite count_uniform by lia. reflexivity. }
  assert (Hi : last_index select ["k"] = Some 2).
  { unfold select. now rewrite last_index_single, bind_index_last. }
  split; [exact Hd|]. split; [exact Hi|]. split.
  - unfold distribute_indexes, distribute. fold d. rewrite Hd, Hi. reflexivity.
  - rewrite Hd. repeat split; reflexivity.
Qed.

(** When the records arrive in another order the stale value can lie below
    the first key: with 20,000,000 records of index 7 followed by one record
    of index 3 the boundaries are [3, 3] and key 7 falls in no range. *)
Lemma distribute_indexes_stale_index_drops :
  let select := fun _ : string => repeat 7 (Z.to_nat 20000000) ++ [3] in
  let d := count_keys select ["k"] in
  d = [(7, 20000000); (3, 1)]
  /\ distribute_indexes select ["k"] = inr [PInt 3; PInt 3]
  /\ ranges_of (domain_min d) [3; 3] = [mk_range 3 3; mk_range 4 3]
  /\ hits (ranges_of (domain_min d) [3; 3]) 7 = O.
Proof.
  intros select d.
  assert (Hd : d = [(7, 20000000); (3, 1)]).
  { unfold d, select. rewrite count_keys_single, count_records_app.
    rewrite count_uniform by lia. reflexivity. }
  assert (Hi : last_index select ["k"] = Some 3).
  { unfold select. now rewrite last_index_single, bind_index_last. }
  split; [exact Hd|]. split.
  - unfold distribute_indexes, distribute. fold d. rewrite Hd, Hi. reflexivity.
  - rewrite Hd. split; reflexivity.
Qed.

(** C6: when no source object yields a record, the mapping is empty, the
    second loop does not run, and [workers_data.append(key)] appends what
    the first loop left in [key]: the result is one boundary, the last
    source key, not the empty list. *)
Theorem distribute_indexes_empty_domain
        (select : string -> list Z) (keys : list string) :
  keys <> [] ->
  (forall key, In key keys -> select key = []) ->
  count_keys select keys = []
  /\ distribute_indexes select keys = inr [PStr (List.last keys "")].
Proof.
  intros Hkeys Hsel.
  pose proof (count_keys_empty select keys Hsel) as Hd.
  split; [exact Hd|].
  unfold distribute_indexes, distribute.
  destruct keys as [|key keys]; [contradiction|].
  rewrite Hd. reflexivity.
Qed.

Lemma distribute_indexes_empty_domain_witness :
  count_keys (fun _ => []) ["a"; "b"] = []
  /\ distribute_indexes (fun _ => []) ["a"; "b"] = inr [PStr "b"].
Proof.
  apply (distribute_indexes_empty_domain (fun _ => []) ["a"; "b"]).
  - discriminate.
  - reflexivity.
Defined.

(** Without any source key the call fails on [keys[0]]. *)
Lemma distribute_indexes_no_keys (select : string -> list Z) :
  distribute_indexes select [] = inl IndexError.
Proof. reflexivity. Qed.

End BalancerClaims.

(* ===================================================================== *)
(** * Properties of the grouping by fasta split *)
(* ===================================================================== *)

Section SplitFacts.
Import FastaSplit.

Lemma append_cons (c : ascii) (s t : string) :
  String c s +:+ t = String c (s +:+ t).
Proof. reflexivity. Qed.

Lemma append_nil_l (s : string) : "" +:+ s = s.
Proof. reflexivity. Qed.

Lemma append_nil_r (s : string) : s +:+ "" = s.
Proof.
  induction s as [|c s IH]; [reflexivity|]. now rewrite append_cons, IH.
Qed.

Lemma append_assoc (s t u : string) : (s +:+ t) +:+ u = s +:+ (t +:+ u).
Proof.
  induction s as [|c s IH]; [reflexivity|]. now rewrite !append_cons, IH.
Qed.

Lemma append_length (s t : string) :
  String.length (s +:+ t) = (String.length s + String.length t)%nat.
Proof.
  induction s as [|c s IH]; [reflexivity|].
  rewrite append_cons. simpl. now rewrite IH.
Qed.

Lemma prefix_cons (a b : ascii) (sep s : string) :
  String.prefix (String a sep) (String b s)
  = if Ascii.eqb a b then String.prefix sep s else false.
Proof.
  simpl. destruct (ascii_dec a b) as [->|Hne].
  - now rewrite Ascii.eqb_refl.
  - destruct (Ascii.eqb_spec a b); [contradiction|reflexivity].
Qed.

Lemma prefix_append (sep s : string) : String.prefix sep (sep +:+ s) = true.
Proof.
  induction sep as [|a sep IH].
  - rewrite append_nil_l. now destruct s.
  - rewrite append_cons. simpl.
    destruct (ascii_dec a a); [exact IH|contradiction].
Qed.

Lemma split_go_cons (sep cur s : string) (n : nat) (c : ascii) :
  split_go sep n cur (String c s)
  = match n with
    | S n' => split_go sep n' cur s
    | O => if String.prefix sep (String c s)
           then cur :: split_go sep (Nat.pred (String.length sep)) "" s
           else split_go sep O (cur +:+ String c "") s
    end.
Proof. reflexivity. Qed.

(** After a match, the rest of the separator is passed over. *)
Lemma split_go_skip (sep t s cur : string) :
  split_go sep (String.length t) cur (t +:+ s) = split_go sep O cur s.
Proof.
  induction t as [|a t IH]; [reflexivity|].
  rewrite append_cons. simpl String.length. rewrite split_go_cons. exact IH.
Qed.

Lemma split_go_match (a : ascii) (sep s cur : string) :
  split_go (String a sep) O cur (String a sep +:+ s)
  = cur :: split_go (String a sep) O "" s.
Proof.
  pose proof (prefix_append (String a sep) s) as Hp.
  rewrite append_cons in *. rewrite split_go_cons, Hp.
  simpl String.length. simpl Nat.pred. now rewrite split_go_skip.
Qed.

Lemma split_go_step (sep s cur : string) (c : ascii) :
  String.prefix sep (String c s) = false ->
  split_go sep O cur (String c s) = split_go sep O (cur +:+ String c "") s.
Proof.
  intros H. now rewrite split_go_cons, H.
Qed.

Lemma occurs_cons (sep s : string) (c : ascii) :
  occurs sep (String c s) = String.prefix sep (String c s) || occurs sep s.
Proof. reflexivity. Qed.

(** Without an occurrence of the separator there is one piece. *)
Lemma split_go_no_occurrence (sep s cur : string) :
  occurs sep s = false -> split_go sep O cur s = [cur +:+ s].
Proof.
  revert cur. induction s as [|c s IH]; intros cur H.
  - rewrite append_nil_r. reflexivity.
  - rewrite occurs_cons in H. apply orb_false_iff in H. destruct H as [Hp Ho].
    rewrite split_go_step by exact Hp.
    rewrite IH by exact Ho. now rewrite append_assoc.
Qed.

Lemma split_go_nonempty (sep s cur : string) (n : nat) :
  split_go sep n cur s <> [].
Proof.
  revert n cur. induction s as [|c s IH]; intros n cur; [discriminate|].
  rewrite split_go_cons. destruct n; [|apply IH].
  destruct (String.prefix sep (String c s)); [discriminate|apply IH].
Qed.

Lemma last_piece_cons (x : string) (l : list string) :
  l <> [] -> last_piece (x :: l) = last_piece l.
Proof. destruct l; [contradiction|reflexivity]. Qed.

(** The last piece is what follows the last occurrence. *)
Lemma split_last_piece (a : ascii) (sep' post : string) :
  border_free (String a sep') ->
  occurs (String a sep') post = false ->
  forall (n : nat) (pre cur : string),
    (String.length pre <= n)%nat ->
    last_piece (split_go (String a sep') O cur (pre +:+ String a sep' +:+ post))
    = post.
Proof.
  intros Hbf Hpost. set (sep := String a sep') in *.
  assert (Hbase : forall cur,
             last_piece (split_go sep O cur (sep +:+ post)) = post).
  { intros cur. unfold sep. rewrite split_go_match. fold sep.
    now rewrite split_go_no_occurrence. }
  induction n as [|n IH]; intros pre cur Hlen.
  - destruct pre; [apply Hbase|simpl in Hlen; lia].
  - destruct pre as [|c pre]; [apply Hbase|].
    destruct (String.prefix sep (String c pre +:+ sep +:+ post)) eqn:Hp.
    + destruct (Hbf c pre post Hp) as [pre' Hpre'].
      rewrite Hpre', append_assoc. unfold sep at 1 2.
      rewrite split_go_match. fold sep.
      rewrite last_piece_cons by apply split_go_nonempty.
      apply IH.
      apply (f_equal String.length) in Hpre'. unfold sep in Hpre'.
      simpl in Hpre', Hlen.
      rewrite append_length in Hpre'. simpl in Hpre'. lia.
    + change (String c pre +:+ sep +:+ post)
        with (String c (pre +:+ sep +:+ post)) in *.
      rewrite split_go_step by exact Hp.
      apply IH. simpl in Hlen. lia.
Qed.

Lemma border_free_slash : border_free "/".
Proof.
  intros c pre tail H. rewrite append_cons, prefix_cons in H.
  destruct (Ascii.eqb_spec "/" c) as [<-|]; [|discriminate].
  now exists pre.
Qed.

Lemma border_free_fa : border_free "fa".
Proof.
  intros c pre tail H. rewrite append_cons, prefix_cons in H.
  destruct (Ascii.eqb_spec "f" c) as [<-|]; [|discriminate].
  destruct pre as [|b pre].
  - rewrite append_nil_l, append_cons, prefix_cons in H. discriminate.
  - rewrite append_cons, prefix_cons in H.
    destruct (Ascii.eqb_spec "a" b) as [<-|]; [|discriminate].
    now exists pre.
Qed.

End SplitFacts.

Section FastaSplitClaims.
Import FastaSplit.

Lemma split_slash_segment (k seg : string) :
  final_segment k seg -> last_piece (split "/" k) = seg.
Proof.
  intros [Hseg [->|[dir ->]]]; unfold split.
  - now rewrite split_go_no_occurrence.
  - apply (split_last_piece "/" "" seg border_free_slash Hseg
             (String.length dir)). lia.
Qed.

(** The group of a key is the character after the last ["fa"] of its final
    segment. *)
Lemma fasta_split_follows (k : string) (c : ascii) :
  follows_last_fa k c -> fasta_split k = inr (String c "").
Proof.
  intros (seg & pre & rest & Hk & -> & Hrest).
  unfold fasta_split. rewrite (split_slash_segment k _ Hk). unfold split.
  rewrite (split_last_piece "f" "a" (String c rest) border_free_fa Hrest
             (String.length pre)) by lia.
  reflexivity.
Qed.

(** ** The dictionary of groups *)

Lemma dd_append_values (d : key_dict) (g k : string) :
  Permutation (all_values (dd_append d g k)) (k :: all_values d).
Proof.
  unfold all_values. induction d as [|[g' ks] d IH]; simpl.
  - reflexivity.
  - destruct (String.eqb g g'); simpl.
    + rewrite <- List.app_assoc. simpl.
      symmetry. apply Permutation_middle.
    + rewrite IH. symmetry. apply Permutation_middle.
Qed.

Lemma dd_append_ids (d : key_dict) (g k x : string) :
  In x (map fst (dd_append d g k)) <-> x = g \/ In x (map fst d).
Proof.
  induction d as [|[g' ks] d IH]; simpl.
  - intuition.
  - destruct (String.eqb_spec g g') as [->|Hne]; simpl.
    + intuition.
    + rewrite IH. intuition.
Qed.

Lemma dd_append_nodup (d : key_dict) (g k : string) :
  List.NoDup (map fst d) -> List.NoDup (map fst (dd_append d g k)).
Proof.
  induction d as [|[g' ks] d IH]; simpl; intros Hnd.
  - repeat constructor. intros [].
  - inversion Hnd as [|? ? Hnot Hnd']; subst.
    destruct (String.eqb_spec g g') as [->|Hne]; simpl.
    + now constructor.
    + constructor; [|now apply IH].
      rewrite dd_append_ids. intros [Heq|Hin]; [now symmetry in Heq|contradiction].
Qed.

Lemma dd_append_keeps (d : key_dict) (g k g' x : string) :
  In x (group_of d g') -> In x (group_of (dd_append d g k) g').
Proof.
  induction d as [|[g0 ks] d IH]; simpl; [intros []|].
  destruct (String.eqb_spec g g0) as [->|Hne]; simpl.
  - destruct (String.eqb g' g0); [|exact (fun H => H)].
    intros H. apply List.in_or_app. now left.
  - destruct (String.eqb g' g0); [exact (fun H => H)|exact IH].
Qed.

Lemma dd_append_member (d : key_dict) (g k : string) :
  In k (group_of (dd_append d g k) g).
Proof.
  induction d as [|[g0 ks] d IH]; simpl.
  - rewrite String.eqb_refl. now left.
  - destruct (String.eqb_spec g g0) as [->|Hne]; simpl.
    + rewrite String.eqb_refl. apply List.in_or_app. right. now left.
    + destruct (String.eqb_spec g g0); [contradiction|exact IH].
Qed.

Lemma group_loop (keys : list string) (chars : list ascii) :
  Forall2 follows_last_fa keys chars ->
  forall d0, List.NoDup (map fst d0) ->
  exists d,
    fold_left group_step keys (inr d0) = inr d /\
    Permutation (all_values d) (all_values d0 ++ keys) /\
    List.NoDup (map fst d) /\
    (forall g x, In x (group_of d0 g) -> In x (group_of d g)) /\
    Forall2 (fun k c => In k (group_of d (String c ""))) keys chars.
Proof.
  induction 1 as [|k c keys chars Hk H IH]; intros d0 Hnd.
  - exists d0. simpl. rewrite List.app_nil_r. repeat split; auto.
  - simpl. rewrite (fasta_split_follows k c Hk).
    destruct (IH (dd_append d0 (String c "") k)) as (d & Hd & Hperm & Hnd' & Hkeep & Hall).
    { now apply dd_append_nodup. }
    exists d. split; [exact Hd|]. split; [|split; [exact Hnd'|split]].
    + rewrite Hperm, dd_append_values. simpl.
      apply Permutation_middle.
    + intros g x Hx. apply Hkeep. now apply dd_append_keeps.
    + constructor; [|exact Hall]. apply Hkeep. apply dd_append_member.
Qed.

(** C10, counterexample: a key whose final segment ends with ["fa"] has no
    character after it; indexing the empty string raises [IndexError] and no
    dictionary is returned. *)
Lemma keys_by_fasta_split_index_error :
  ~ groups_every_key ["refs/hg19.fa"].
Proof.
  intros (d & Hd & _). vm_compute in Hd. discriminate.
Qed.

(** C10, amended: for every list of keys in which each key's final path
    segment contains ["fa"] with at least one character after its last
    occurrence, [keys_by_fasta_split] returns a dictionary whose group ids
    are pairwise distinct, whose group values together are a permutation of
    the input list, and in which each key is in the group named by the single
    character that follows the last ["fa"] of its final segment. *)
Theorem keys_by_fasta_split_groups (keys : list string) (chars : list ascii) :
  Forall2 follows_last_fa keys chars ->
  exists d,
    keys_by_fasta_split keys = inr d /\
    Permutation (all_values d) keys /\
    List.NoDup (map fst d) /\
    Forall2 (fun k c => In k (group_of d (String c ""))) keys chars.
Proof.
  intros H.
  destruct (group_loop keys chars H [] (List.NoDup_nil _))
    as (d & Hd & Hperm & Hnd & _ & Hall).
  exists d. repeat split; assumption.
Qed.

(** The theorem applied to the keys of fasta splits 10 and 1: both are in
    group ["1"]. *)
Lemma keys_by_fasta_split_groups_witness :
  exists d,
    keys_by_fasta_split ["t/fq0/fa10/b_fa10-fq0.mpileup"; "t/fq0/fa1/b_fa1-fq0.mpileup"]
    = inr d /\
    Permutation (all_values d)
      ["t/fq0/fa10/b_fa10-fq0.mpileup"; "t/fq0/fa1/b_fa1-fq0.mpileup"] /\
    List.NoDup (map fst d) /\
    Forall2 (fun k c => In k (group_of d (String c "")))
      ["t/fq0/fa10/b_fa10-fq0.mpileup"; "t/fq0/fa1/b_fa1-fq0.mpileup"]
      ["1"%char; "1"%char].
Proof.
  apply (keys_by_fasta_split_groups
           ["t/fq0/fa10/b_fa10-fq0.mpileup"; "t/fq0/fa1/b_fa1-fq0.mpileup"]
           ["1"%char; "1"%char]).
  constructor; [|constructor; [|constructor]].
  - exists "b_fa10-fq0.mpileup", "b_", "0-fq0.mpileup".
    split; [split; [reflexivity|right; now exists "t/fq0/fa10"]|].
    split; reflexivity.
  - exists "b_fa1-fq0.mpileup", "b_", "-fq0.mpileup".
    split; [split; [reflexivity|right; now exists "t/fq0/fa1"]|].
    split; reflexivity.
Defined.

(** Splits 10 and 1 share one group. *)
Example fasta_split_two_digits :
  keys_by_fasta_split
    ["t/fq0/fa10/b_fa10-fq0.mpileup"; "t/fq0/fa1/b_fa1-fq0.mpileup"]
  = inr [("1", ["t/fq0/fa10/b_fa10-fq0.mpileup"; "t/fq0/fa1/b_fa1-fq0.mpileup"])].
Proof. reflexivity. Qed.

End FastaSplitClaims.

(* ===================================================================== *)
(** * Properties of the chunk stage functions *)
(* ===================================================================== *)

Section StageFacts.
Import Stages.

(** Case analysis on the outcome of the next collaborator call. *)
Ltac next_call E :=
  match goal with
  | |- context [raises E ?c] => destruct (raises E c) eqn:?; simpl
  end.

Ltac run_stage := unfold mbind, M_bind, mret, M_ret, call, modify, reads; simpl.

Ltac open_stage :=
  unfold after, outcome, except_no_such_key, head_object, try_finally,
    mkdtemp, getcwd, chdir, upload_file, sp_run, force_delete_local_path,
    assert, check_returncode, raise;
  run_stage.

(** ** [align_mapper] *)

Ltac check_recomputed :=
  split; [reflexivity|split; [reflexivity|split; [reflexivity|]]];
  intros x Hx;
  first [ discriminate
        | injection Hx as <-;
          split; [reflexivity|split; [|rewrite <- List.app_assoc]; reflexivity] ].

Lemma align_mapper_both (E : env) pp run fa fac fq fqc (w : world) :
  map_index_key pp run fa fq ∈ objects w ->
  filtered_map_key pp run fa fq ∈ objects w ->
  align_mapper E pp run fa fac fq fqc w
  = (w, inr (fq, fa, map_index_key pp run fa fq, filtered_map_key pp run fa fq)).
Proof.
  intros H1 H2. unfold align_mapper. open_stage.
  rewrite (bool_decide_eq_true_2 _ H1). simpl.
  rewrite (bool_decide_eq_true_2 _ H2). reflexivity.
Qed.

Lemma align_mapper_missing (E : env) pp run fa fac fq fqc (w : world) :
  ~ (map_index_key pp run fa fq ∈ objects w
     /\ filtered_map_key pp run fa fq ∈ objects w) ->
  recomputed pp run fa fq fqc w
    (after (align_mapper E pp run fa fac fq fqc) w)
    (outcome (align_mapper E pp run fa fac fq fqc) w).
Proof.
  intros Hnot. unfold recomputed, align_mapper. open_stage.
  destruct (bool_decide (map_index_key pp run fa fq ∈ objects w)) eqn:H1; simpl.
  - destruct (bool_decide (filtered_map_key pp run fa fq ∈ objects w)) eqn:H2;
      simpl.
    + exfalso. apply Hnot. apply bool_decide_eq_true in H1, H2. now split.
    + repeat next_call E; check_recomputed.
  - repeat next_call E; check_recomputed.
Qed.

Lemma align_mapper_succeeds (E : env) pp run fa fac fq fqc (w : world) :
  (forall c, raises E c = None) ->
  outcome (align_mapper E pp run fa fac fq fqc) w
  = inr (fq, fa, map_index_key pp run fa fq, filtered_map_key pp run fa fq).
Proof.
  intros Hq. unfold align_mapper. open_stage.
  destruct (bool_decide (map_index_key pp run fa fq ∈ objects w)); simpl;
    [destruct (bool_decide (filtered_map_key pp run fa fq ∈ objects w)); simpl|];
    rewrite ?Hq; simpl; reflexivity.
Qed.


(** C7: [align_mapper] does no work (no working area, no command, no
    upload) if and only if both expected outputs are in the store, and then
    returns their keys with the world unchanged.  When an output is missing,
    also when exactly one of the two is present, it makes a working area and
    runs the computation; whenever it then returns, the script was run and both
    artifacts were uploaded, in this run, under their keys; and it does return
    if no collaborator raises. *)
Theorem align_mapper_skips_iff_both_exist
        (E : env) pp run fa fac fq fqc (w : world) :
  let k1 := map_index_key pp run fa fq in
  let k2 := filtered_map_key pp run fa fq in
  let m := align_mapper E pp run fa fac fq fqc in
  (idle m w <-> k1 ∈ objects w /\ k2 ∈ objects w)
  /\ (k1 ∈ objects w /\ k2 ∈ objects w ->
      after m w = w /\ outcome m w = inr (fq, fa, k1, k2))
  /\ (~ (k1 ∈ objects w /\ k2 ∈ objects w) ->
      recomputed pp run fa fq fqc w (after m w) (outcome m w)
      /\ ((forall c, raises E c = None) -> outcome m w = inr (fq, fa, k1, k2))).
Proof.
  intros k1 k2 m.
  assert (Hskip : k1 ∈ objects w /\ k2 ∈ objects w ->
                  after m w = w /\ outcome m w = inr (fq, fa, k1, k2)).
  { intros [H1 H2]. unfold after, outcome, m.
    rewrite (align_mapper_both E pp run fa fac fq fqc w H1 H2). now split. }
  assert (Hwork : ~ (k1 ∈ objects w /\ k2 ∈ objects w) ->
                  recomputed pp run fa fq fqc w (after m w) (outcome m w)).
  { apply align_mapper_missing. }
  split; [|split; [exact Hskip|]].
  - split.
    + intros (Hmade & _ & _).
      destruct (decide (k1 ∈ objects w /\ k2 ∈ objects w)) as [Hboth|Hnot];
        [exact Hboth|].
      destruct (Hwork Hnot) as (Hmade' & _). rewrite Hmade' in Hmade. lia.
    + intros Hboth. destruct (Hskip Hboth) as [Hw _].
      unfold idle. rewrite Hw. now repeat split.
  - intros Hnot. split; [now apply Hwork|].
    intros Hq. now apply align_mapper_succeeds.
Qed.

(** The theorem applied to a store that holds the map-index artifact but not
    the filtered alignment: both are uploaded again. *)
Lemma align_mapper_skips_iff_both_exist_witness :
  let k1 := map_index_key sample_params "run1" 3 7 in
  let k2 := filtered_map_key sample_params "run1" 3 7 in
  let w := fresh_world [k1] in
  let m := align_mapper (quiet 0) sample_params "run1" 3 3 7 7 in
  outcome m w = inr (7, 3, k1, k2) /\ uploaded (after m w) = [k1; k2].
Proof.
  intros k1 k2 w m.
  destruct (align_mapper_skips_iff_both_exist
              (quiet 0) sample_params "run1" 3 3 7 7 w) as (_ & _ & H).
  destruct H as [Hrec Hsucc].
  - intros [_ H2]. refine (bool_decide_eq_false_1 _ _ H2).
    vm_compute. reflexivity.
  - specialize (Hsucc (fun _ => eq_refl)). split; [exact Hsucc|].
    destruct Hrec as (_ & _ & _ & Hup).
    destruct (Hup _ Hsucc) as (_ & _ & Huploaded). exact Huploaded.
Defined.

(** ** Working areas *)

(** C8: [align_mapper] leaves its temporary directory behind and does not
    restore the working directory, when it returns as well as when it raises
    (its [finally] clause only prints); [filter_index_to_mpileup] makes its
    temporary directory before the existence check and leaves it behind when
    it skips. *)
Theorem align_mapper_leaves_working_area :
  let w := fresh_world ["gem/3.gem"] in
  let good := align_mapper (quiet 0) sample_params "run1" 3 3 7 7 in
  let bad := align_mapper fetch_fails sample_params "run1" 3 3 7 7 in
  let w2 := fresh_world [mpileup_key sample_params 3 7] in
  let skip := filter_index_to_mpileup (quiet 0) sample_params 3 3 7 "a/m.bz2" "c/i.bz2" in
  cwd w = "/home/worker"
  /\ (outcome good w
      = inr (7, 3, map_index_key sample_params "run1" 3 7,
             filtered_map_key sample_params "run1" 3 7)
      /\ tmp_name 0 ∈ dirs (after good w) /\ cwd (after good w) = tmp_name 0)
  /\ (outcome bad w = inl (OSError "fetch")
      /\ tmp_name 0 ∈ dirs (after bad w) /\ cwd (after bad w) = tmp_name 0)
  /\ (outcome skip w2 = inr (mpileup_key sample_params 3 7)
      /\ uploaded (after skip w2) = []
      /\ tmp_name 0 ∈ dirs (after skip w2)).
Proof.
  cbv zeta.
  repeat split; try (vm_compute; reflexivity);
    apply bool_decide_unpack; vm_compute; exact I.
Qed.

Lemma removed_again (d : string) (D : gset string) : ({[d]} ∪ D) ∖ {[d]} ⊆ D.
Proof.
  intros x Hx. apply elem_of_difference in Hx as [Hx Hne].
  apply elem_of_union in Hx as [Hx|Hx]; [contradiction|exact Hx].
Qed.

Ltac check_released :=
  split; [reflexivity|first [reflexivity | apply removed_again]].

(** [gem_indexer] restores the working directory and removes the directory
    it made, whatever happens. *)
Lemma gem_indexer_releases (E : env) (fa fac : Z) (w : world) :
  cwd (after (gem_indexer E fa fac) w) = cwd w
  /\ dirs (after (gem_indexer E fa fac) w) ⊆ dirs w.
Proof.
  unfold gem_indexer. open_stage.
  destruct (bool_decide (_ ∈ objects w)); simpl; [check_released|].
  repeat (next_call E
          || match goal with
             | |- context [Z.eqb ?a ?b] => destruct (Z.eqb a b) eqn:?; simpl
             end);
    check_released.
Qed.

(** So does [filter_index_to_mpileup] once it has found its output missing. *)
Lemma filter_index_to_mpileup_releases
      (E : env) pp (fa fac fq : Z) (fkey ckey : string) (w : world) :
  mpileup_key pp fa fq ∉ objects w ->
  cwd (after (filter_index_to_mpileup E pp fa fac fq fkey ckey) w) = cwd w
  /\ dirs (after (filter_index_to_mpileup E pp fa fac fq fkey ckey) w) ⊆ dirs w.
Proof.
  intros Hk. unfold filter_index_to_mpileup. open_stage.
  rewrite (bool_decide_eq_false_2 _ Hk). simpl.
  repeat next_call E; check_released.
Qed.

Lemma removed_both (d1 d2 : string) (D : gset string) :
  (({[d2]} ∪ ({[d1]} ∪ D)) ∖ {[d1]}) ∖ {[d2]} ⊆ D.
Proof.
  intros x Hx. apply elem_of_difference in Hx as [Hx Hne2].
  apply elem_of_difference in Hx as [Hx Hne1].
  apply elem_of_union in Hx as [Hx|Hx]; [contradiction|].
  apply elem_of_union in Hx as [Hx|Hx]; [contradiction|exact Hx].
Qed.

(** A loop whose body leaves the world alone leaves the world alone. *)
Lemma for_each_world {A : Type} (f : A -> M unit) (l : list A) (w : world) :
  (forall x w0, fst (f x w0) = w0) -> fst (for_each f l w) = w.
Proof.
  intros Hf. revert w. induction l as [|x l IH]; intros w; [reflexivity|].
  simpl. unfold mbind, M_bind. specialize (Hf x w).
  destruct (f x w) as [w1 [e|u]]; simpl in Hf; subst w1; [reflexivity|apply IH].
Qed.

(** [index_correction] restores the working directory and removes both
    directories it made, whatever happens. *)
Lemma index_correction_releases
      (E : env) pp (fq : Z) (keys : list string) (w : world) :
  cwd (after (index_correction E pp fq keys) w) = cwd w
  /\ dirs (after (index_correction E pp fq keys) w) ⊆ dirs w.
Proof.
  unfold index_correction. open_stage.
  destruct (bool_decide (_ ∈ objects w)); simpl; [check_released|].
  match goal with
  | |- context [for_each ?f ?l ?w1] =>
      pose proof (for_each_world f l w1) as Hw;
      destruct (for_each f l w1) as [w2 [e|[]]]
  end; simpl in Hw; rewrite Hw; simpl.
  - split; [reflexivity|apply removed_both].
  - intros [i key] w0. unfold call.
    repeat next_call E; reflexivity.
  - repeat (next_call E
            || match goal with
               | |- context [Z.eqb ?a ?b] => destruct (Z.eqb a b) eqn:?; simpl
               end);
      (split; [reflexivity|apply removed_both]).
  - intros [i key] w0. unfold call.
    repeat next_call E; reflexivity.
Qed.

(** ** Exit status of the external step *)

(** C9: the map-index-and-filter script exits with status 1 and nothing
    else goes wrong; [align_mapper] never looks at the status, uploads both
    artifacts and returns their keys. *)
Theorem align_mapper_ignores_exit_status :
  let w := fresh_world ["gem/3.gem"] in
  let m := align_mapper (quiet 1) sample_params "run1" 3 3 7 7 in
  returncode (quiet 1) (align_cmd sample_params 3 7) = 1
  /\ ran (after m w) = [align_cmd sample_params 3 7]
  /\ outcome m w
     = inr (7, 3, map_index_key sample_params "run1" 3 7,
            filtered_map_key sample_params "run1" 3 7)
  /\ uploaded (after m w)
     = [map_index_key sample_params "run1" 3 7;
        filtered_map_key sample_params "run1" 3 7].
Proof. cbv zeta. repeat split; vm_compute; reflexivity. Qed.

(** The exit status has no influence on [align_mapper] at all. *)
Lemma align_mapper_status_irrelevant
      (outcomes : ext -> option exn) (status status' : list string -> Z) (n : Z)
      pp run fa fac fq fqc (w : world) :
  align_mapper (mk_env outcomes status n) pp run fa fac fq fqc w
  = align_mapper (mk_env outcomes status' n) pp run fa fac fq fqc w.
Proof.
  unfold align_mapper. open_stage.
  destruct (bool_decide (map_index_key pp run fa fq ∈ objects w)); simpl;
    [destruct (bool_decide (filtered_map_key pp run fa fq ∈ objects w)); simpl|];
    repeat match goal with
           | |- context [outcomes ?c] => destruct (outcomes c) eqn:?; simpl
           end;
    reflexivity.
Qed.

(** [gem_indexer] asserts that the status is 1: any other status, 0
    included, ends the call with [AssertionError] before the upload. *)
Lemma gem_indexer_status (status fa fac : Z) (w : world) :
  "gem/" +:+ os_path_join (str_int fa +:+ ".gem") [] ∉ objects w ->
  let m := gem_indexer (quiet status) fa fac in
  (status <> 1 -> outcome m w = inl AssertionError /\ uploaded (after m w) = uploaded w)
  /\ (status = 1 -> outcome m w = inr tt).
Proof.
  intros Hk m. unfold m, gem_indexer. open_stage.
  rewrite (bool_decide_eq_false_2 _ Hk). simpl.
  split; intros Hs.
  - destruct (Z.eqb_spec status 1) as [->|_]; [contradiction|]. now split.
  - subst status. reflexivity.
Qed.

(** [index_correction] checks the status: a script that exits with 1 ends
    the call with [CalledProcessError] and nothing is uploaded. *)
Example index_correction_checks_status :
  let m := index_correction (quiet 1) sample_params 7 ["a"; "b"] in
  outcome m (fresh_world ["a"; "b"]) = inl CalledProcessError
  /\ uploaded (after m (fresh_world ["a"; "b"])) = [].
Proof. cbv zeta. split; vm_compute; reflexivity. Qed.

End StageFacts.

(* ===================================================================== *)
(** * Further properties of the multipart completion *)
(* ===================================================================== *)

Section MpuMore.
Import Mpu.

(** What one scan hands out: the first [remove] parts, all with the id. *)
Lemma scan_parts_prefix (id : string) (parts : list part) :
  fst (scan_parts id parts) = map strip (firstn (snd (scan_parts id parts)) parts)
  /\ Forall (fun p => mpu_id p = id) (firstn (snd (scan_parts id parts)) parts).
Proof.
  induction parts as [|p parts IH]; simpl.
  - split; [reflexivity|constructor].
  - destruct (String.eqb_spec id (mpu_id p)) as [Heq|Hne].
    + destruct (scan_parts id parts) as [mp r]. simpl in *.
      destruct IH as [IH1 IH2]. split; [now rewrite IH1|].
      constructor; [now symmetry|exact IH2].
    + simpl. split; [reflexivity|constructor].
Qed.

Lemma firstn_plus {A : Type} (n m : nat) (l : list A) :
  firstn (n + m) l = firstn n l ++ firstn m (skipn n l).
Proof.
  revert l. induction n as [|n IH]; intros l; [reflexivity|].
  destruct l as [|x l]; simpl.
  - now destruct m.
  - now rewrite IH.
Qed.

Lemma in_skipn {A : Type} (n : nat) (l : list A) (x : A) :
  In x (skipn n l) -> In x l.
Proof.
  revert l. induction n as [|n IH]; intros l; [exact (fun H => H)|].
  destruct l as [|y l]; simpl; [exact (fun H => H)|].
  intros H. right. now apply IH.
Qed.

Lemma in_firstn {A : Type} (n : nat) (l : list A) (x : A) :
  In x (firstn n l) -> In x l.
Proof.
  revert l. induction n as [|n IH]; intros l; [intros []|].
  destruct l as [|y l]; simpl; [exact (fun H => H)|].
  intros [H|H]; [now left|right; now apply IH].
Qed.

(** Without a raising call there is one completion call per pair of
    [zip(keys, mpu_ids)], in that order. *)
Lemma complete_multipart_pairs (keys ids : list string) (parts : list part) :
  map (fun c => (Key c, UploadId c)) (complete_multipart keys ids parts)
  = combine keys ids.
Proof.
  unfold complete_multipart. revert parts.
  induction (combine keys ids) as [|[key id] kids IH]; intros parts; simpl.
  - reflexivity.
  - destruct (scan_parts id parts) as [mp r]. simpl. now rewrite IH.
Qed.

Lemma complete_loop_with_returns (raises : completion -> bool)
      (kids : list (string * string)) (parts : list part) :
  Forall (fun c => raises c = false) (complete_loop kids parts) ->
  Completion.complete_loop_with raises kids parts
  = (complete_loop kids parts, true).
Proof.
  revert parts. induction kids as [|[key id] kids IH]; intros parts; simpl.
  - reflexivity.
  - destruct (scan_parts id parts) as [mp r]. intros Hall.
    apply List.Forall_inv in Hall as Hc. apply List.Forall_inv_tail in Hall.
    rewrite Hc, (IH _ Hall). reflexivity.
Qed.

Lemma complete_loop_with_raises (raises : completion -> bool)
      (kids : list (string * string)) (parts : list part)
      (done rest : list completion) (c : completion) :
  complete_loop kids parts = done ++ c :: rest ->
  Forall (fun c' => raises c' = false) done ->
  raises c = true ->
  Completion.complete_loop_with raises kids parts = (done ++ [c], false).
Proof.
  revert parts done.
  induction kids as [|[key id] kids IH]; intros parts done; simpl.
  - intros H. destruct done; discriminate.
  - destruct (scan_parts id parts) as [mp r]. intros Hall Hdone Hc.
    destruct done as [|c0 done]; simpl in Hall; injection Hall as Hc0 Hall.
    + subst c. now rewrite Hc.
    + apply List.Forall_inv in Hdone as Hc0'.
      apply List.Forall_inv_tail in Hdone. subst c0.
      rewrite Hc0', (IH _ _ Hall Hdone Hc). reflexivity.
Qed.

Lemma complete_loop_with_prefix (raises : completion -> bool)
      (kids : list (string * string)) (parts : list part) :
  exists n,
    fst (Completion.complete_loop_with raises kids parts)
    = firstn n (complete_loop kids parts)
    /\ (snd (Completion.complete_loop_with raises kids parts) = true
        -> n = length (complete_loop kids parts)).
Proof.
  revert parts. induction kids as [|[key id] kids IH]; intros parts; simpl.
  - exists O. now split.
  - destruct (scan_parts id parts) as [mp r].
    destruct (raises (mk_completion key id mp)).
    + exists 1%nat. split; [reflexivity|discriminate].
    + destruct (IH (skipn r parts)) as (n & Hn & Hret).
      destruct (Completion.complete_loop_with raises kids (skipn r parts))
        as [calls ret].
      simpl in *. exists (S n). split; [now rewrite Hn|].
      intros H. now rewrite (Hret H).
Qed.

(** X1: [complete_multipart] makes its completion calls in the order of
    [zip(keys, mpu_ids)], each under its key and upload id.  The call is
    not guarded: when none raises there is one call per pair and the function
    returns; the first call that raises ends the function, so that the
    uploads before it are completed and those after it never are.  In every
    case the calls made are a prefix of the calls of an undisturbed run. *)
Theorem complete_multipart_stops_at_failure
        (raises : completion -> bool) (keys ids : list string)
        (parts : list part) :
  let all := complete_multipart keys ids parts in
  let run := Completion.complete_multipart_with raises keys ids parts in
  map (fun c => (Key c, UploadId c)) all = combine keys ids
  /\ (Forall (fun c => raises c = false) all -> run = (all, true))
  /\ (forall done c rest,
        all = done ++ c :: rest ->
        Forall (fun c' => raises c' = false) done ->
        raises c = true ->
        run = (done ++ [c], false))
  /\ (exists n, fst run = firstn n all
                /\ (snd run = true -> n = length all)).
Proof.
  cbv zeta. split; [apply complete_multipart_pairs|].
  split; [apply complete_loop_with_returns|].
  split; [|apply complete_loop_with_prefix].
  intros done c rest. apply complete_loop_with_raises.
Qed.

(** X2: [complete_multipart] never hands a part to another upload: every
    entry listed in a completion call comes from a collected part that
    carries the upload id of that call. *)
Theorem complete_multipart_never_misassigns
        (keys ids : list string) (parts : list part) :
  Forall (fun c =>
            Forall (fun e => exists p,
                        In p parts /\ mpu_id p = UploadId c /\ strip p = e)
                   (Parts c))
         (complete_multipart keys ids parts).
Proof.
  unfold complete_multipart.
  assert (H : forall kids suffix,
             (forall p, In p suffix -> In p parts) ->
             Forall (fun c =>
                       Forall (fun e => exists p,
                                   In p parts /\ mpu_id p = UploadId c
                                   /\ strip p = e) (Parts c))
                    (complete_loop kids suffix)).
  { induction kids as [|[key id] kids IH]; intros suffix Hsub; simpl.
    - constructor.
    - pose proof (scan_parts_prefix id suffix) as [Hmp Hid].
      destruct (scan_parts id suffix) as [mp r]. simpl in *.
      constructor.
      + simpl. subst mp. apply List.Forall_forall. intros e He.
        apply List.in_map_iff in He as (p & Hp & Hin).
        exists p. split; [|split; [|exact Hp]].
        * apply Hsub. now apply in_firstn with r.
        * rewrite List.Forall_forall in Hid. now apply Hid.
      + apply IH. intros p Hp. apply Hsub. now apply in_skipn with r. }
  apply H. auto.
Qed.

(** X3: the part lists of the completion calls, put one after the other,
    are a prefix of the collected parts in arrival order: no part is listed
    twice, none is invented, and the order is never changed. *)
Theorem complete_multipart_hands_out_prefix
        (keys ids : list string) (parts : list part) :
  exists n,
    concat (map Parts (complete_multipart keys ids parts))
    = map strip (firstn n parts).
Proof.
  unfold complete_multipart. revert parts.
  induction (combine keys ids) as [|[key id] kids IH]; intros parts; simpl.
  - exists O. reflexivity.
  - pose proof (scan_parts_prefix id parts) as [Hmp _].
    destruct (scan_parts id parts) as [mp r]. simpl in *.
    destruct (IH (skipn r parts)) as [n Hn].
    exists (r + n)%nat. rewrite Hn, Hmp, firstn_plus. now rewrite List.map_app.
Qed.

End MpuMore.

(* ===================================================================== *)
(** * Further properties of the partition balancer *)
(* ===================================================================== *)

Section BalancerMore.
Import Balancer Census.

(** ** What the counting loop builds *)

Lemma dict_get_set (d : dict) (k v k' default : Z) :
  dict_get (dict_set d k v) k' default
  = if Z.eqb k' k then v else dict_get d k' default.
Proof.
  induction d as [|[k0 v0] d IH]; simpl; [reflexivity|].
  destruct (Z.eqb_spec k k0) as [->|Hne]; simpl.
  - now destruct (Z.eqb_spec k' k0).
  - rewrite IH. destruct (Z.eqb_spec k' k0) as [->|]; [|reflexivity].
    destruct (Z.eqb_spec k0 k); [now subst|reflexivity].
Qed.

Lemma occurrences_cons (x k : Z) (l : list Z) :
  occurrences (x :: l) k = (if Z.eqb k x then 1 else 0) + occurrences l k.
Proof.
  unfold occurrences. simpl.
  destruct (Z.eq_dec x k) as [->|Hne].
  - rewrite Z.eqb_refl. lia.
  - destruct (Z.eqb_spec k x); [now subst|lia].
Qed.

Lemma count_records_get (l : list Z) (d : dict) (k : Z) :
  dict_get (count_records d l) k 0 = dict_get d k 0 + occurrences l k.
Proof.
  revert d. induction l as [|x l IH]; intros d.
  - unfold occurrences. simpl. lia.
  - change (count_records d (x :: l))
      with (count_records (dict_set d x (dict_get d x 0 + 1)) l).
    rewrite IH, dict_get_set, occurrences_cons.
    destruct (Z.eqb_spec k x) as [->|]; lia.
Qed.

Lemma total_set_next (d : dict) (k : Z) :
  total (dict_set d k (dict_get d k 0 + 1)) = total d + 1.
Proof.
  unfold total. induction d as [|[k0 v0] d IH]; simpl; [reflexivity|].
  destruct (Z.eqb_spec k k0) as [->|Hne]; simpl; lia.
Qed.

Lemma count_records_total (l : list Z) (d : dict) :
  total (count_records d l) = total d + Z.of_nat (length l).
Proof.
  revert d. induction l as [|x l IH]; intros d.
  - simpl. lia.
  - change (count_records d (x :: l))
      with (count_records (dict_set d x (dict_get d x 0 + 1)) l).
    rewrite IH, total_set_next. simpl length. lia.
Qed.

(** The first loop counts the records of all sources as one list. *)
Lemma count_keys_records (select : string -> list Z) (keys : list string) :
  count_keys select keys = count_records [] (records select keys).
Proof.
  unfold count_keys, records. generalize (@nil (Z * Z)).
  induction keys as [|key keys IH]; intros d; simpl; [reflexivity|].
  now rewrite IH, count_records_app.
Qed.

(** X4: after the first loop of [distribute_indexes], [count_indexes] maps
    every index to the number of records that carry it, over all sources
    (0, through [get], for an index that no record carries), and the counts
    add up to the number of records. *)
Theorem count_keys_counts (select : string -> list Z) (keys : list string) :
  (forall k, dict_get (count_keys select keys) k 0
             = occurrences (records select keys) k)
  /\ total (count_keys select keys) = Z.of_nat (length (records select keys)).
Proof.
  rewrite count_keys_records. split.
  - intros k. now rewrite count_records_get.
  - now rewrite count_records_total.
Qed.

(** ** The iteration order of the mapping *)

Lemma dict_set_keys (d : dict) (k v : Z) :
  map fst (dict_set d k v)
  = if existsb (Z.eqb k) (map fst d) then map fst d else map fst d ++ [k].
Proof.
  induction d as [|[k0 v0] d IH]; simpl; [reflexivity|].
  destruct (Z.eqb_spec k k0) as [->|Hne]; simpl; [reflexivity|].
  rewrite IH. now destruct (existsb (Z.eqb k) (map fst d)).
Qed.

Lemma first_seen_ext (l s1 s2 : list Z) :
  (forall y, existsb (Z.eqb y) s1 = existsb (Z.eqb y) s2) ->
  first_seen s1 l = first_seen s2 l.
Proof.
  revert s1 s2. induction l as [|x l IH]; intros s1 s2 H; simpl; [reflexivity|].
  rewrite (H x). destruct (existsb (Z.eqb x) s2).
  - now apply IH.
  - f_equal. apply IH. intros y. simpl. now rewrite H.
Qed.

Lemma count_records_keys (l : list Z) (d : dict) :
  map fst (count_records d l) = map fst d ++ first_seen (map fst d) l.
Proof.
  revert d. induction l as [|x l IH]; intros d.
  - simpl. now rewrite List.app_nil_r.
  - change (count_records d (x :: l))
      with (count_records (dict_set d x (dict_get d x 0 + 1)) l).
    rewrite IH, dict_set_keys. simpl.
    destruct (existsb (Z.eqb x) (map fst d)) eqn:Hx; [reflexivity|].
    rewrite <- List.app_assoc. simpl. do 2 f_equal.
    apply first_seen_ext. intros y.
    rewrite List.existsb_app. simpl. now rewrite orb_false_r, orb_comm.
Qed.

Lemma first_seen_fresh (l seen : list Z) :
  List.NoDup (first_seen seen l)
  /\ forall x, In x (first_seen seen l) -> ~ In x seen /\ In x l.
Proof.
  revert seen. induction l as [|x l IH]; intros seen; simpl.
  - split; [constructor|intros x []].
  - destruct (existsb (Z.eqb x) seen) eqn:Hx.
    + destruct (IH seen) as [Hnd Hin]. split; [exact Hnd|].
      intros y Hy. destruct (Hin y Hy). split; [assumption|now right].
    + destruct (IH (x :: seen)) as [Hnd Hin]. split.
      * constructor; [|exact Hnd]. intros Hx'.
        destruct (Hin x Hx') as [Hnot _]. apply Hnot. now left.
      * intros y [<-|Hy].
        -- split; [|now left]. intros Hin'.
           assert (existsb (Z.eqb x) seen = true) as Ht.
           { apply List.existsb_exists. exists x. split; [exact Hin'|apply Z.eqb_refl]. }
           congruence.
        -- destruct (Hin y Hy) as [Hnot Hl]. split; [|now right].
           intros Hs. apply Hnot. now right.
Qed.

(** X5: the keys of [count_indexes] are the distinct index values in the
    order in which they first appear in the sources, each once; this is the
    order in which the second loop walks them. *)
Theorem count_keys_first_appearance
        (select : string -> list Z) (keys : list string) :
  map fst (count_keys select keys) = first_seen [] (records select keys)
  /\ List.NoDup (map fst (count_keys select keys)).
Proof.
  rewrite count_keys_records, count_records_keys. simpl.
  split; [reflexivity|apply first_seen_fresh].
Qed.

(** ** What the walk returns *)

Lemma walk_bound (MAX : Z) (items : dict) (n i : Z) :
  exists new,
    walk MAX items [] n (Some i) = inr new
    /\ Forall (fun b => b = i \/ In b (map fst items)) new
    /\ (length new <= length items)%nat.
Proof.
  revert n i. induction items as [|[k c] items IH]; intros n i; simpl.
  - exists []. split; [reflexivity|split; [constructor|simpl; lia]].
  - destruct (n + c <? MAX).
    + destruct (IH (n + c) k) as (new & Hw & Hin & Hlen).
      exists new. split; [exact Hw|]. split; [|lia].
      eapply List.Forall_impl; [|exact Hin]. simpl. intros b [->|Hb]; auto.
    + destruct (IH 0 i) as (new & Hw & Hin & Hlen).
      exists (i :: new). rewrite walk_acc, Hw. split; [reflexivity|].
      split; [|simpl; lia].
      constructor; [now left|].
      eapply List.Forall_impl; [|exact Hin]. simpl. intros b [->|Hb]; auto.
Qed.

Lemma last_in (l : list Z) (x : Z) : In (List.last l x) (x :: l).
Proof.
  revert x. induction l as [|y l IH]; intros x; [now left|].
  rewrite last_cons. right. apply IH.
Qed.

(** X6: when the first key's count is below the budget, in whatever order
    the mapping lists its keys, every boundary that [distribute_indexes]
    returns is one of the observed index values, and there are at most as
    many boundaries as distinct index values. *)
Theorem distribute_boundaries_are_keys
        (MAX : Z) (select : string -> list Z) (keys : list string)
        (k0 c0 : Z) (rest : dict) :
  keys <> [] ->
  count_keys select keys = (k0, c0) :: rest ->
  c0 < MAX ->
  exists ends,
    distribute MAX select keys = inr (map PInt ends)
    /\ Forall (fun b => In b (k0 :: map fst rest)) ends
    /\ (length ends <= length ((k0, c0) :: rest))%nat.
Proof.
  intros Hkeys Hd Hc. unfold distribute.
  destruct keys as [|key keys]; [contradiction|].
  rewrite Hd, walk_start by exact Hc.
  destruct (walk_bound MAX rest (0 + c0) k0) as (new & Hw & Hin & Hlen).
  rewrite Hw. exists (new ++ [List.last (map fst rest) k0]).
  split; [|split].
  - rewrite List.map_app. simpl. now rewrite last_fst.
  - apply List.Forall_app. split.
    + eapply List.Forall_impl; [|exact Hin]. simpl.
      intros b [->|Hb]; [now left|now right].
    + constructor; [apply last_in|constructor].
  - rewrite List.length_app. simpl. lia.
Qed.

Lemma distribute_boundaries_are_keys_witness :
  exists ends,
    distribute MAX_INDEXES two_sources ["a"; "b"] = inr (map PInt ends)
    /\ Forall (fun b => In b [5; 1]) ends
    /\ (length ends <= 2)%nat.
Proof.
  apply (distribute_boundaries_are_keys MAX_INDEXES two_sources ["a"; "b"]
           5 1 [(1, 1)]).
  - discriminate.
  - reflexivity.
  - reflexivity.
Defined.

(** ** When everything fits *)

Lemma dict_get_nonneg (d : dict) (k : Z) :
  Forall (fun kc => 0 <= snd kc) d -> 0 <= dict_get d k 0.
Proof.
  induction 1 as [|[k0 v0] d H0 _ IH]; simpl; [lia|].
  now destruct (Z.eqb k k0).
Qed.

Lemma dict_set_nonneg (d : dict) (k v : Z) :
  0 <= v -> Forall (fun kc => 0 <= snd kc) d ->
  Forall (fun kc => 0 <= snd kc) (dict_set d k v).
Proof.
  intros Hv. induction 1 as [|[k0 v0] d H0 Hd IH]; simpl.
  - repeat constructor. exact Hv.
  - destruct (Z.eqb k k0); constructor; assumption.
Qed.

Lemma count_records_nonneg (l : list Z) (d : dict) :
  Forall (fun kc => 0 <= snd kc) d ->
  Forall (fun kc => 0 <= snd kc) (count_records d l).
Proof.
  revert d. induction l as [|x l IH]; intros d Hd; [exact Hd|].
  change (count_records d (x :: l))
    with (count_records (dict_set d x (dict_get d x 0 + 1)) l).
  apply IH. apply dict_set_nonneg; [|exact Hd].
  pose proof (dict_get_nonneg d x Hd). lia.
Qed.

(** While the running sum stays below the budget no range is closed. *)
Lemma walk_fits (MAX : Z) (items : dict) (n : Z) (index : option Z) :
  Forall (fun kc => 0 <= snd kc) items ->
  n + total items < MAX ->
  walk MAX items [] n index = inr [].
Proof.
  revert n index. induction items as [|[k c] items IH]; intros n index Hpos Hfit.
  - reflexivity.
  - apply List.Forall_inv in Hpos as Hc. apply List.Forall_inv_tail in Hpos.
    unfold total in *. simpl in *.
    assert (Hrest : 0 <= zsum (map snd items)).
    { clear -Hpos. induction Hpos as [|[k' c'] l Hc' _ IHl]; simpl in *; lia. }
    destruct (Z.ltb_spec (n + c) MAX); [|lia].
    apply IH; [exact Hpos|lia].
Qed.

(** X7: when the sources hold at least one record and fewer than the
    budget in total, [distribute_indexes] returns a single boundary, the
    index value that is the last to make its first appearance. *)
Theorem distribute_single_range
        (MAX : Z) (select : string -> list Z) (keys : list string) :
  records select keys <> [] ->
  Z.of_nat (length (records select keys)) < MAX ->
  distribute MAX select keys
  = inr [PInt (List.last (first_seen [] (records select keys)) 0)].
Proof.
  intros Hne Hfit.
  destruct (count_keys_counts select keys) as [_ Htotal].
  destruct (count_keys_first_appearance select keys) as [Horder _].
  assert (Hpos : Forall (fun kc => 0 <= snd kc) (count_keys select keys)).
  { rewrite count_keys_records. apply count_records_nonneg. constructor. }
  unfold distribute. destruct keys as [|key keys]; [now destruct Hne|].
  rewrite <- Horder.
  rewrite (walk_fits MAX (count_keys select (key :: keys)) 0
             (last_index select (key :: keys)) Hpos) by lia.
  simpl. unfold final_key.
  destruct (count_keys select (key :: keys)) as [|[k0 c0] rest] eqn:Hd.
  - exfalso. rewrite <- Hd in Htotal.
    rewrite Hd in Htotal. unfold total in Htotal. simpl in Htotal.
    destruct (records select (key :: keys)); [now apply Hne|simpl in Htotal; lia].
  - simpl map. rewrite last_cons, last_fst. reflexivity.
Qed.

Lemma distribute_single_range_witness :
  distribute 200 (fun _ => example_records) ["k"] = inr [PInt 5].
Proof.
  apply (distribute_single_range 200 (fun _ => example_records) ["k"]).
  - discriminate.
  - reflexivity.
Defined.

(** ** When the call fails *)

Lemma last_index_records (select : string -> list Z) (keys : list string) :
  last_index select keys = bind_index None (records select keys).
Proof.
  unfold last_index, records. generalize (@None Z).
  induction keys as [|key keys IH]; intros index; simpl; [reflexivity|].
  now rewrite IH, bind_index_app.
Qed.

(** A non-empty mapping was made of at least one record, and [index] holds
    the last of them. *)
Lemma last_index_bound (select : string -> list Z) (keys : list string)
      (kc : Z * Z) (rest : dict) :
  count_keys select keys = kc :: rest ->
  exists pre r,
    records select keys = pre ++ [r] /\ last_index select keys = Some r.
Proof.
  intros Hd. rewrite count_keys_records in Hd.
  destruct (records select keys) as [|x l] eqn:Hr; [discriminate|].
  destruct (List.exists_last (l := x :: l)) as (pre & r & Hpre);
    [discriminate|].
  exists pre, r. split; [exact Hpre|].
  now rewrite last_index_records, Hr, Hpre, bind_index_last.
Qed.

(** X8: given the index columns that the queries return,
    [distribute_indexes] fails only when there is no source key at all
    ([keys[0]], [IndexError]).  It never finds [index] unbound: when the
    count of the first key of the mapping reaches the budget, the first
    boundary it appends is the value that the counting loop left in
    [index], the last record read, whatever index that is. *)
Theorem distribute_fails_iff
        (MAX : Z) (select : string -> list Z) (keys : list string) :
  (forall e, distribute MAX select keys = inl e
             <-> keys = [] /\ e = IndexError)
  /\ (forall k0 c0 rest,
        count_keys select keys = (k0, c0) :: rest -> MAX <= c0 ->
        exists pre r ends,
          records select keys = pre ++ [r]
          /\ distribute MAX select keys = inr (PInt r :: map PInt ends)).
Proof.
  split.
  - intros e. unfold distribute. destruct keys as [|key keys].
    + split; [intros H; split; [reflexivity|congruence]|now intros [_ ->]].
    + split; [|intros [H _]; discriminate].
      destruct (count_keys select (key :: keys)) as [|kc rest] eqn:Hd;
        [discriminate|].
      destruct (last_index_bound select (key :: keys) kc rest Hd)
        as (pre & r & _ & ->).
      destruct kc as [k0 c0]. simpl walk.
      destruct (0 + c0 <? MAX).
      * destruct (walk_bound MAX rest (0 + c0) k0) as (new & -> & _).
        discriminate.
      * rewrite walk_acc.
        destruct (walk_bound MAX rest 0 r) as (new & -> & _). discriminate.
  - intros k0 c0 rest Hd Hc.
    destruct (last_index_bound select keys (k0, c0) rest Hd)
      as (pre & r & Hpre & Hi).
    unfold distribute. destruct keys as [|key keys]; [discriminate|].
    rewrite Hd, Hi. simpl walk.
    destruct (Z.ltb_spec (0 + c0) MAX) as [|_]; [lia|].
    rewrite walk_acc.
    destruct (walk_bound MAX rest 0 r) as (new & -> & _).
    exists pre, r, (new ++ [List.last (map fst rest) k0]).
    split; [exact Hpre|].
    simpl. rewrite List.map_app. simpl. now rewrite last_fst.
Qed.

End BalancerMore.

(* ===================================================================== *)
(** * Further properties of the grouping by fasta split *)
(* ===================================================================== *)

Section GroupsMore.
Import FastaSplit Groups.

(** ** Splitting and joining *)

Lemma prefix_split (sep s : string) :
  String.prefix sep s = true -> exists rest, s = sep +:+ rest.
Proof.
  revert s. induction sep as [|a sep IH]; intros s H.
  - now exists s.
  - destruct s as [|b s]; [discriminate|].
    rewrite prefix_cons in H.
    destruct (Ascii.eqb_spec a b) as [->|]; [|discriminate].
    destruct (IH s H) as [rest ->]. now exists rest.
Qed.

Lemma join_cons (sep x : string) (l : list string) :
  l <> [] -> join sep (x :: l) = x +:+ sep +:+ join sep l.
Proof. destruct l; [contradiction|reflexivity]. Qed.

Lemma join_split_go (a : ascii) (sep' : string) (n : nat) :
  forall s cur,
    (String.length s <= n)%nat ->
    join (String a sep') (split_go (String a sep') O cur s) = cur +:+ s.
Proof.
  set (sep := String a sep').
  induction n as [|n IH]; intros s cur Hlen.
  - destruct s; [|simpl in Hlen; lia]. simpl. now rewrite append_nil_r.
  - destruct s as [|c s]; [simpl; now rewrite append_nil_r|].
    destruct (String.prefix sep (String c s)) eqn:Hp.
    + destruct (prefix_split _ _ Hp) as [rest Hrest]. rewrite Hrest.
      unfold sep at 2 3. rewrite split_go_match. fold sep.
      rewrite join_cons by apply split_go_nonempty.
      rewrite IH; [reflexivity|].
      apply (f_equal String.length) in Hrest.
      rewrite append_length in Hrest. unfold sep in Hrest. simpl in Hrest, Hlen.
      lia.
    + rewrite split_go_step by exact Hp.
      rewrite IH by (simpl in Hlen; lia).
      now rewrite append_assoc.
Qed.

(** X9: joining the pieces of a split with the separator gives the string
    back, for every non-empty separator: the split used on the keys loses
    no character and invents none. *)
Theorem join_split (a : ascii) (sep' s : string) :
  join (String a sep') (split (String a sep') s) = s.
Proof.
  unfold split. now rewrite (join_split_go a sep' (String.length s)).
Qed.

(** ** The groups *)

Lemma group_of_append (d : key_dict) (g k g' : string) :
  group_of (dd_append d g k) g'
  = if String.eqb g' g then group_of d g' ++ [k] else group_of d g'.
Proof.
  induction d as [|[g0 ks] d IH]; simpl.
  - destruct (String.eqb g' g); reflexivity.
  - destruct (String.eqb_spec g g0) as [->|Hne]; simpl.
    + destruct (String.eqb g' g0); reflexivity.
    + destruct (String.eqb_spec g' g0) as [->|]; [|exact IH].
      destruct (String.eqb_spec g0 g); [now subst|reflexivity].
Qed.

Lemma dd_append_nonempty (d : key_dict) (g k : string) :
  Forall (fun gk => snd gk <> []) d ->
  Forall (fun gk => snd gk <> []) (dd_append d g k).
Proof.
  induction 1 as [|[g0 ks] d H0 Hd IH]; simpl.
  - repeat constructor. discriminate.
  - destruct (String.eqb g g0); constructor; try assumption.
    simpl. now destruct ks.
Qed.

Lemma group_loop_exact (keys : list string) :
  Forall (fun k => exists g, fasta_split k = inr g) keys ->
  forall d0, Forall (fun gk => snd gk <> []) d0 ->
  exists d,
    fold_left group_step keys (inr d0) = inr d
    /\ (forall g, group_of d g = group_of d0 g ++ List.filter (in_group g) keys)
    /\ Forall (fun gk => snd gk <> []) d.
Proof.
  induction 1 as [|k keys [g0 Hk] _ IH]; intros d0 Hd0.
  - exists d0. simpl. split; [reflexivity|]. split; [|exact Hd0].
    intros g. now rewrite List.app_nil_r.
  - simpl. rewrite Hk.
    destruct (IH (dd_append d0 g0 k)) as (d & Hd & Hg & Hne).
    { now apply dd_append_nonempty. }
    exists d. split; [exact Hd|]. split; [|exact Hne].
    intros g. rewrite Hg, group_of_append. unfold in_group at 2. rewrite Hk.
    destruct (String.eqb g g0); [now rewrite <- List.app_assoc|reflexivity].
Qed.

(** X10: when every key has a group id, the group filed under an id holds
    exactly the input keys with that id, in input order; no group is
    empty. *)
Theorem keys_by_fasta_split_keeps_order (keys : list string) :
  Forall (fun k => exists g, fasta_split k = inr g) keys ->
  exists d,
    keys_by_fasta_split keys = inr d
    /\ (forall g, group_of d g = List.filter (in_group g) keys)
    /\ Forall (fun gk => snd gk <> []) d.
Proof.
  intros H.
  destruct (group_loop_exact keys H [] (List.Forall_nil _)) as (d & Hd & Hg & Hne).
  exists d. split; [exact Hd|]. split; [|exact Hne].
  intros g. now rewrite Hg.
Qed.

Lemma keys_by_fasta_split_keeps_order_witness :
  exists d,
    keys_by_fasta_split ["r/fa2/x_fa2-fq0"; "r/fa1/x_fa1-fq0"; "r/fa2/x_fa2-fq1"]
    = inr d
    /\ (forall g, group_of d g
                  = List.filter (in_group g)
                      ["r/fa2/x_fa2-fq0"; "r/fa1/x_fa1-fq0"; "r/fa2/x_fa2-fq1"])
    /\ Forall (fun gk => snd gk <> []) d.
Proof.
  apply (keys_by_fasta_split_keeps_order
           ["r/fa2/x_fa2-fq0"; "r/fa1/x_fa1-fq0"; "r/fa2/x_fa2-fq1"]).
  repeat constructor; eexists; reflexivity.
Defined.

(** ** Failure *)

Lemma fasta_split_error (k : string) (e : exn) :
  fasta_split k = inl e -> e = IndexError.
Proof.
  unfold fasta_split.
  destruct (last_piece (split "fa" (last_piece (split "/" k)))); congruence.
Qed.

Lemma group_loop_failed (keys : list string) (e : exn) :
  fold_left group_step keys (inl e) = inl e.
Proof. induction keys as [|k keys IH]; [reflexivity|exact IH]. Qed.

Lemma group_loop_fails_iff (keys : list string) (d0 : key_dict) (e : exn) :
  fold_left group_step keys (inr d0) = inl e
  <-> e = IndexError /\ Exists (fun k => fasta_split k = inl IndexError) keys.
Proof.
  revert d0. induction keys as [|k keys IH]; intros d0; simpl.
  - split; [discriminate|]. intros [_ H]. inversion H.
  - destruct (fasta_split k) as [e'|g] eqn:Hk.
    + apply fasta_split_error in Hk as He. subst e'.
      rewrite group_loop_failed. split.
      * intros H. injection H as <-. split; [reflexivity|]. now left.
      * now intros [-> _].
    + rewrite IH. split; intros [He H]; (split; [exact He|]).
      * now right.
      * inversion H as [? ? Hbad|? ? Hlater]; subst; [congruence|exact Hlater].
Qed.

(** *** When [fasta_split[0]] raises, read off the key *)

Lemma join_snoc (sep x : string) (l : list string) :
  l <> [] -> join sep (l ++ [x]) = join sep l +:+ sep +:+ x.
Proof.
  induction l as [|y l IH]; intros Hne; [contradiction|].
  destruct l as [|z l]; [reflexivity|].
  change ((y :: z :: l) ++ [x]) with (y :: ((z :: l) ++ [x])).
  rewrite join_cons by (destruct l; discriminate).
  rewrite IH by discriminate.
  rewrite (join_cons sep y (z :: l)) by discriminate.
  now rewrite !append_assoc.
Qed.

(** A string is its last piece, or ends with a separator followed by its
    last piece. *)
Lemma split_last_decompose (a : ascii) (sep' s : string) :
  s = last_piece (split (String a sep') s)
  \/ exists pre,
       s = pre +:+ String a sep' +:+ last_piece (split (String a sep') s).
Proof.
  unfold split.
  pose proof (join_split_go a sep' (String.length s) s "" (le_n _)) as Hj.
  rewrite append_nil_l in Hj.
  destruct (List.exists_last (split_go_nonempty (String a sep') s "" O))
    as (init & t & Hl).
  rewrite Hl in *. unfold last_piece. rewrite List.last_last.
  destruct init as [|y init].
  - left. simpl in Hj. now symmetry.
  - right. exists (join (String a sep') (y :: init)).
    rewrite join_snoc in Hj by discriminate. now symmetry.
Qed.

Lemma prefix_empty (s : string) : String.prefix "" s = true.
Proof. now destruct s. Qed.

Lemma slash_free_snoc (cur : string) (c : ascii) :
  occurs "/" cur = false -> Ascii.eqb "/" c = false ->
  occurs "/" (cur +:+ String c "") = false.
Proof.
  intros Hcur Hc. induction cur as [|x cur IH].
  - rewrite append_nil_l, occurs_cons, prefix_cons, Hc. reflexivity.
  - rewrite append_cons, occurs_cons. rewrite occurs_cons in Hcur.
    apply orb_false_iff in Hcur as [Hp Ho].
    rewrite prefix_cons in *. rewrite prefix_empty in *.
    destruct (Ascii.eqb "/" x); [discriminate|]. simpl. now apply IH.
Qed.

(** No piece of a split at slashes holds a slash. *)
Lemma split_go_slash_free (s cur : string) :
  occurs "/" cur = false ->
  Forall (fun p => occurs "/" p = false) (split_go "/" O cur s).
Proof.
  revert cur. induction s as [|c s IH]; intros cur Hcur.
  - repeat constructor. exact Hcur.
  - rewrite split_go_cons.
    destruct (String.prefix "/" (String c s)) eqn:Hp.
    + constructor; [exact Hcur|]. now apply IH.
    + apply IH. apply slash_free_snoc; [exact Hcur|].
      rewrite prefix_cons, prefix_empty in Hp.
      now destruct (Ascii.eqb "/" c).
Qed.

Lemma last_piece_final_segment (k : string) :
  final_segment k (last_piece (split "/" k)).
Proof.
  split.
  - pose proof (split_go_slash_free k "" eq_refl) as Hall.
    unfold split.
    destruct (List.exists_last (split_go_nonempty "/" k "" O))
      as (init & t & Hl).
    rewrite Hl in *. unfold last_piece. rewrite List.last_last.
    apply List.Forall_app in Hall as [_ Ht]. now apply List.Forall_inv in Ht.
  - apply (split_last_decompose "/" "" k).
Qed.

Lemma fasta_split_fails_iff (k : string) :
  fasta_split k = inl IndexError
  <-> exists seg,
        final_segment k seg /\ (seg = "" \/ exists pre, seg = pre +:+ "fa").
Proof.
  split.
  - unfold fasta_split. intros H.
    exists (last_piece (split "/" k)).
    split; [apply last_piece_final_segment|].
    destruct (split_last_decompose "f" "a" (last_piece (split "/" k)))
      as [Hs|[pre Hs]];
      destruct (last_piece (split "fa" (last_piece (split "/" k))));
      try discriminate.
    + now left.
    + right. exists pre. now rewrite append_nil_r in Hs.
  - intros (seg & Hk & Hseg). unfold fasta_split.
    rewrite (split_slash_segment k seg Hk).
    destruct Hseg as [->|[pre ->]]; [reflexivity|].
    unfold split.
    pose proof (split_last_piece "f" "a" "" border_free_fa eq_refl
                  (String.length pre) pre "" (le_n _)) as H.
    rewrite append_nil_r in H. now rewrite H.
Qed.

(** X11: [keys_by_fasta_split] fails exactly when the final path segment
    of some key (what follows its last slash, or the whole key) is empty or
    ends with ["fa"], so that nothing is left for [fasta_split[0]]; the
    failure is that [IndexError] and no dictionary, not even for the keys
    seen before, is returned. *)
Theorem keys_by_fasta_split_fails_iff (keys : list string) (e : exn) :
  keys_by_fasta_split keys = inl e
  <-> e = IndexError
      /\ Exists (fun k => exists seg,
                   final_segment k seg
                   /\ (seg = "" \/ exists pre, seg = pre +:+ "fa")) keys.
Proof.
  unfold keys_by_fasta_split. rewrite group_loop_fails_iff.
  split; intros [He H]; (split; [exact He|]);
    (eapply List.Exists_impl; [|exact H]); intros k Hk;
    now apply fasta_split_fails_iff.
Qed.

(** X12: a key whose final path segment ends with ["fa"], or is empty
    (the key is empty or ends with a slash), makes [fasta_split[0]] raise
    [IndexError]. *)
Theorem fasta_split_nothing_follows (k seg : string) :
  final_segment k seg ->
  seg = "" \/ (exists pre, seg = pre +:+ "fa") ->
  fasta_split k = inl IndexError.
Proof.
  intros Hk Hseg. unfold fasta_split.
  rewrite (split_slash_segment k seg Hk).
  destruct Hseg as [->|[pre ->]]; [reflexivity|].
  unfold split.
  pose proof (split_last_piece "f" "a" "" border_free_fa eq_refl
                (String.length pre) pre "" (le_n _)) as H.
  rewrite append_nil_r in H. now rewrite H.
Qed.

Lemma fasta_split_nothing_follows_witness :
  fasta_split "refs/hg19.fa" = inl IndexError
  /\ fasta_split "tmp/run/" = inl IndexError.
Proof.
  split.
  - apply (fasta_split_nothing_follows "refs/hg19.fa" "hg19.fa").
    + split; [reflexivity|right; now exists "refs"].
    + right. now exists "hg19.".
  - apply (fasta_split_nothing_follows "tmp/run/" "").
    + split; [reflexivity|right; now exists "tmp/run"].
    + now left.
Defined.

(** X13: a key whose final path segment contains no ["fa"] is filed under
    the first character of that segment. *)
Theorem fasta_split_without_fa (k : string) (c : ascii) (rest : string) :
  final_segment k (String c rest) ->
  occurs "fa" (String c rest) = false ->
  fasta_split k = inr (String c "").
Proof.
  intros Hk Hfa. unfold fasta_split.
  rewrite (split_slash_segment k _ Hk). unfold split.
  now rewrite split_go_no_occurrence.
Qed.

Lemma fasta_split_without_fa_witness :
  fasta_split "tmp/run/chunk7.txt" = inr "c".
Proof.
  apply (fasta_split_without_fa "tmp/run/chunk7.txt" "c" "hunk7.txt").
  - split; [reflexivity|right; now exists "tmp/run"].
  - reflexivity.
Defined.

End GroupsMore.

(* ===================================================================== *)
(** * Further properties of the chunk stage functions *)
(* ===================================================================== *)

Section StagesMore.
Import Stages StageNames.

Ltac next_call E :=
  match goal with
  | |- context [raises E ?c] => destruct (raises E c) eqn:?; simpl
  end.

Ltac next_status :=
  match goal with
  | |- context [Z.eqb ?a ?b] => destruct (Z.eqb_spec a b); simpl
  end.

Ltac open_stage :=
  unfold after, outcome, except_no_such_key, head_object, try_finally,
    mkdtemp, getcwd, chdir, upload_file, sp_run, force_delete_local_path,
    assert, check_returncode, raise;
  unfold mbind, M_bind, mret, M_ret, call, modify, reads; simpl.

(** Give the probed key its name. *)
Ltac name_key w K :=
  match goal with
  | |- context [bool_decide (?k ∈ objects w)] => change k with K
  end.

(** ** [gem_indexer] *)

Lemma gem_indexer_skips (E : env) (fa fac : Z) (w : world) :
  gem_key fa ∈ objects w -> gem_indexer E fa fac w = (w, inr tt).
Proof.
  intros Hk. unfold gem_indexer. open_stage.
  name_key w (gem_key fa). now rewrite (bool_decide_eq_true_2 _ Hk).
Qed.

Lemma gem_indexer_stores (E : env) (fa fac : Z) (w : world) :
  outcome (gem_indexer E fa fac) w = inr tt ->
  gem_key fa ∈ objects (after (gem_indexer E fa fac) w).
Proof.
  unfold gem_indexer. open_stage. name_key w (gem_key fa).
  destruct (bool_decide (gem_key fa ∈ objects w)) eqn:Hk; simpl.
  - intros _. now apply bool_decide_eq_true in Hk.
  - repeat (next_call E || next_status); intros H; try discriminate;
      apply elem_of_union_l; now apply elem_of_singleton.
Qed.

(** X14: once it has found the index missing, [gem_indexer] returns only
    if gem-indexer exited with status 1, and then it has uploaded the index
    once, under [gem/<id>.gem]; with any other exit status, 0 included, it
    does not return normally and the store is left as it was. *)
Theorem gem_indexer_requires_status_one (E : env) (fa fac : Z) (w : world) :
  gem_key fa ∉ objects w ->
  let m := gem_indexer E fa fac in
  (outcome m w = inr tt ->
   returncode E (gem_cmd E fa fac) = 1
   /\ uploaded (after m w) = uploaded w ++ [gem_key fa])
  /\ (returncode E (gem_cmd E fa fac) <> 1 ->
      outcome m w <> inr tt
      /\ objects (after m w) = objects w
      /\ uploaded (after m w) = uploaded w).
Proof.
  intros Hk m. unfold m, gem_indexer, gem_cmd. open_stage.
  name_key w (gem_key fa). rewrite (bool_decide_eq_false_2 _ Hk). simpl.
  repeat (next_call E || next_status);
    (split; [intros H; first [discriminate | split; [assumption|reflexivity]]
            |intros H; first [contradiction
                             | split; [discriminate|split; reflexivity]]]).
Qed.

Lemma gem_indexer_requires_status_one_witness :
  outcome (gem_indexer (quiet 1) 3 3) (fresh_world []) = inr tt
  /\ outcome (gem_indexer (quiet 0) 3 3) (fresh_world []) <> inr tt.
Proof.
  assert (Hk : gem_key 3 ∉ objects (fresh_world [])).
  { refine (bool_decide_eq_false_1 _ _). vm_compute. reflexivity. }
  split.
  - reflexivity.
  - destruct (gem_indexer_requires_status_one (quiet 0) 3 3 (fresh_world []) Hk)
      as [_ H].
    apply H. discriminate.
Defined.

(** X15: after a run of [gem_indexer] that returned, any further run for
    the same reference chunk, with whatever collaborators, returns at once
    and leaves the world exactly as it is. *)
Theorem gem_indexer_rerun (E E' : env) (fa fac fac' : Z) (w : world) :
  outcome (gem_indexer E fa fac) w = inr tt ->
  gem_indexer E' fa fac' (after (gem_indexer E fa fac) w)
  = (after (gem_indexer E fa fac) w, inr tt).
Proof.
  intros H. apply gem_indexer_skips. now apply gem_indexer_stores.
Qed.

Lemma gem_indexer_rerun_witness :
  gem_indexer fetch_fails 3 3 (after (gem_indexer (quiet 1) 3 3) (fresh_world []))
  = (after (gem_indexer (quiet 1) 3 3) (fresh_world []), inr tt).
Proof.
  apply (gem_indexer_rerun (quiet 1) fetch_fails 3 3 3 (fresh_world [])).
  reflexivity.
Defined.

(** ** [align_mapper] *)

Lemma align_mapper_stores (E : env) pp run fa fac fq fqc (w : world) x :
  outcome (align_mapper E pp run fa fac fq fqc) w = inr x ->
  map_index_key pp run fa fq ∈ objects (after (align_mapper E pp run fa fac fq fqc) w)
  /\ filtered_map_key pp run fa fq
     ∈ objects (after (align_mapper E pp run fa fac fq fqc) w)
  /\ x = (fq, fa, map_index_key pp run fa fq, filtered_map_key pp run fa fq).
Proof.
  unfold align_mapper. open_stage.
  destruct (bool_decide (map_index_key pp run fa fq ∈ objects w)) eqn:H1; simpl;
    [destruct (bool_decide (filtered_map_key pp run fa fq ∈ objects w)) eqn:H2;
     simpl|].
  - intros H. injection H as <-.
    apply bool_decide_eq_true in H1, H2. now repeat split.
  - repeat next_call E; intros H; try discriminate; injection H as <-;
      (split; [apply elem_of_union_r, elem_of_union_l; now apply elem_of_singleton
              |split; [apply elem_of_union_l; now apply elem_of_singleton
                      |reflexivity]]).
  - repeat next_call E; intros H; try discriminate; injection H as <-;
      (split; [apply elem_of_union_r, elem_of_union_l; now apply elem_of_singleton
              |split; [apply elem_of_union_l; now apply elem_of_singleton
                      |reflexivity]]).
Qed.

(** X16: after a run of [align_mapper] that returned, any further run for
    the same pair of chunks, with whatever collaborators, returns the same
    keys at once and leaves the world exactly as it is: no second upload,
    no command, no working area. *)
Theorem align_mapper_rerun (E E' : env) pp run fa fac fac' fq fqc fqc'
        (w : world) x :
  outcome (align_mapper E pp run fa fac fq fqc) w = inr x ->
  align_mapper E' pp run fa fac' fq fqc'
    (after (align_mapper E pp run fa fac fq fqc) w)
  = (after (align_mapper E pp run fa fac fq fqc) w, inr x).
Proof.
  intros H. destruct (align_mapper_stores E pp run fa fac fq fqc w x H)
    as (H1 & H2 & ->).
  now apply align_mapper_both.
Qed.

Lemma align_mapper_rerun_witness :
  let w1 := after (align_mapper (quiet 0) sample_params "run1" 3 3 7 7)
                  (fresh_world ["gem/3.gem"]) in
  align_mapper fetch_fails sample_params "run1" 3 3 7 7 w1
  = (w1, inr (7, 3, map_index_key sample_params "run1" 3 7,
              filtered_map_key sample_params "run1" 3 7)).
Proof.
  apply (align_mapper_rerun (quiet 0) fetch_fails sample_params "run1"
           3 3 3 7 7 7 (fresh_world ["gem/3.gem"])).
  reflexivity.
Defined.

(** X17: whatever happens, the keys that one call of [align_mapper]
    uploads are, in order, nothing, the map-index key alone, or the
    map-index key followed by the filtered-alignment key: the filtered
    alignment is never in the store without the map index having been
    written first. *)
Theorem align_mapper_upload_order (E : env) pp run fa fac fq fqc (w : world) :
  exists l,
    uploaded (after (align_mapper E pp run fa fac fq fqc) w) = uploaded w ++ l
    /\ (l = []
        \/ l = [map_index_key pp run fa fq]
        \/ l = [map_index_key pp run fa fq; filtered_map_key pp run fa fq]).
Proof.
  unfold align_mapper. open_stage.
  destruct (bool_decide (map_index_key pp run fa fq ∈ objects w)); simpl;
    [destruct (bool_decide (filtered_map_key pp run fa fq ∈ objects w)); simpl|];
    repeat next_call E;
    first [ exists []; split; [now rewrite List.app_nil_r|now left]
          | exists [map_index_key pp run fa fq];
            split; [reflexivity|right; now left]
          | exists [map_index_key pp run fa fq; filtered_map_key pp run fa fq];
            split; [now rewrite <- List.app_assoc|right; now right] ].
Qed.

(** X18: the two keys under which [align_mapper] stores its outputs are
    different, whatever the parameters and chunk ids: the second upload
    never overwrites the first. *)
Theorem align_mapper_keys_differ pp run fa fq :
  String.eqb (map_index_key pp run fa fq) (filtered_map_key pp run fa fq)
  = false.
Proof.
  apply String.eqb_neq.
  unfold map_index_key, filtered_map_key, gem_mapper_key, os_path_join.
  simpl fold_left.
  generalize (join_step (join_step (join_step (join_step (tmp_prefix pp) run)
                "gem-mapper") ("fq" +:+ str_int fq)) ("fa" +:+ str_int fa)).
  intros P. unfold join_step.
  assert (Hp : String.prefix "/" (sra_accession pp +:+ "_map.index.txt.bz2")
               = String.prefix "/" (sra_accession pp +:+ "_filt_wline_no.map.bz2")).
  { destruct (sra_accession pp) as [|c s]; [reflexivity|].
    rewrite !append_cons, !prefix_cons.
    destruct (Ascii.eqb "/" c); [|reflexivity].
    now destruct (s +:+ "_map.index.txt.bz2"), (s +:+ "_filt_wline_no.map.bz2"). }
  rewrite Hp.
  assert (Hne : sra_accession pp +:+ "_map.index.txt.bz2"
                <> sra_accession pp +:+ "_filt_wline_no.map.bz2").
  { intros H. apply String.app_inj in H. discriminate. }
  destruct (String.prefix "/" (sra_accession pp +:+ "_filt_wline_no.map.bz2"));
    [exact Hne|].
  destruct (String.eqb P "" || ends_with_slash P); intros H.
  - apply String.app_inj in H. now apply Hne.
  - apply String.app_inj in H. apply String.app_inj in H. now apply Hne.
Qed.

(** ** [index_correction] *)

Ltac open_loop Hw :=
  match goal with
  | |- context [for_each ?f ?l ?w1] =>
      assert (Hw : fst (for_each f l w1) = w1);
      [ apply for_each_world; intros [? ?] ?; unfold call, mbind, M_bind;
        repeat match goal with
               | |- context [raises ?E ?c] => destruct (raises E c); simpl
               end; reflexivity
      | destruct (for_each f l w1) as [? [?|[]]]; simpl in Hw; subst; simpl ]
  end.

Lemma index_correction_skips (E : env) pp (fq : Z) keys (w : world) :
  corrected_index_key pp fq ∈ objects w ->
  index_correction E pp fq keys w = (w, inr (fq, corrected_index_key pp fq)).
Proof.
  intros Hk. unfold index_correction. open_stage.
  now rewrite (bool_decide_eq_true_2 _ Hk).
Qed.

Lemma index_correction_stores (E : env) pp (fq : Z) keys (w : world) x :
  outcome (index_correction E pp fq keys) w = inr x ->
  corrected_index_key pp fq ∈ objects (after (index_correction E pp fq keys) w)
  /\ x = (fq, corrected_index_key pp fq).
Proof.
  unfold index_correction. open_stage.
  destruct (bool_decide (corrected_index_key pp fq ∈ objects w)) eqn:Hk; simpl.
  - intros H. injection H as <-. apply bool_decide_eq_true in Hk. now split.
  - open_loop Hw; [discriminate|].
    repeat (next_call E || next_status); intros H; try discriminate;
      injection H as <-;
      (split; [apply elem_of_union_l; now apply elem_of_singleton|reflexivity]).
Qed.

(** X19: after a run of [index_correction] that returned, any further run
    for the same read chunk, with whatever collaborators and whatever list
    of map-index keys, returns the same pair at once and leaves the world
    exactly as it is. *)
Theorem index_correction_rerun (E E' : env) pp (fq : Z) keys keys'
        (w : world) x :
  outcome (index_correction E pp fq keys) w = inr x ->
  index_correction E' pp fq keys' (after (index_correction E pp fq keys) w)
  = (after (index_correction E pp fq keys) w, inr x).
Proof.
  intros H. destruct (index_correction_stores E pp fq keys w x H) as [Hk ->].
  now apply index_correction_skips.
Qed.

Lemma index_correction_rerun_witness :
  let w1 := after (index_correction (quiet 0) sample_params 7 ["a"; "b"])
                  (fresh_world ["a"; "b"]) in
  index_correction fetch_fails sample_params 7 [] w1
  = (w1, inr (7, corrected_index_key sample_params 7)).
Proof.
  apply (index_correction_rerun (quiet 0) fetch_fails sample_params 7
           ["a"; "b"] [] (fresh_world ["a"; "b"])).
  reflexivity.
Defined.

(** X20: once it has found the corrected index missing, [index_correction]
    returns only if both shell commands exited with status 0; it has then run
    the merge command on the first directory it made and the filter command,
    in this order and nothing else, and uploaded the corrected index once.
    If one of the two commands exits with another status the call does not
    return normally and the store is left as it was. *)
Theorem index_correction_requires_status_zero
        (E : env) pp (fq : Z) keys (w : world) :
  corrected_index_key pp fq ∉ objects w ->
  let m := index_correction E pp fq keys in
  let merge := merge_cmd (tmp_name (made w)) fq in
  (forall x, outcome m w = inr x ->
     returncode E merge = 0 /\ returncode E (filter_cmd fq) = 0
     /\ ran (after m w) = ran w ++ [merge; filter_cmd fq]
     /\ uploaded (after m w) = uploaded w ++ [corrected_index_key pp fq])
  /\ (returncode E merge <> 0 \/ returncode E (filter_cmd fq) <> 0 ->
      (forall x, outcome m w <> inr x)
      /\ objects (after m w) = objects w
      /\ uploaded (after m w) = uploaded w).
Proof.
  intros Hk m merge. unfold m, merge, index_correction, merge_cmd, filter_cmd.
  open_stage.
  rewrite (bool_decide_eq_false_2 _ Hk). simpl.
  open_loop Hw.
  - split; [discriminate|]. intros _. now repeat split.
  - repeat (next_call E || next_status);
      (split;
       [intros x H; first [discriminate
                          | repeat split;
                            first [assumption | now rewrite <- List.app_assoc
                                  | reflexivity]]
       |intros [H|H]; first [contradiction
                            | split; [discriminate|split; reflexivity]]]).
Qed.

Lemma index_correction_requires_status_zero_witness :
  let m := index_correction (quiet 0) sample_params 7 ["a"; "b"] in
  let w := fresh_world ["a"; "b"] in
  ran (after m w) = [merge_cmd (tmp_name 0) 7; filter_cmd 7]
  /\ uploaded (after m w) = [corrected_index_key sample_params 7].
Proof.
  intros m w.
  assert (Hk : corrected_index_key sample_params 7 ∉ objects w).
  { refine (bool_decide_eq_false_1 _ _). vm_compute. reflexivity. }
  destruct (index_correction_requires_status_zero
              (quiet 0) sample_params 7 ["a"; "b"] w Hk) as [H _].
  destruct (H (7, corrected_index_key sample_params 7) eq_refl)
    as (_ & _ & Hran & Hup).
  split; [exact Hran|exact Hup].
Defined.

(** ** [filter_index_to_mpileup] *)

Lemma filter_index_to_mpileup_present
      (E : env) pp (fa fac fq : Z) (fkey ckey : string) (w : world) :
  mpileup_key pp fa fq ∈ objects w ->
  filter_index_to_mpileup E pp fa fac fq fkey ckey w
  = (fst (mkdtemp w), inr (mpileup_key pp fa fq)).
Proof.
  intros Hk. unfold filter_index_to_mpileup. open_stage.
  now rewrite (bool_decide_eq_true_2 _ Hk).
Qed.

Lemma filter_index_to_mpileup_stores
      (E : env) pp (fa fac fq : Z) (fkey ckey : string) (w : world) x :
  outcome (filter_index_to_mpileup E pp fa fac fq fkey ckey) w = inr x ->
  mpileup_key pp fa fq
    ∈ objects (after (filter_index_to_mpileup E pp fa fac fq fkey ckey) w)
  /\ x = mpileup_key pp fa fq.
Proof.
  unfold filter_index_to_mpileup. open_stage.
  destruct (bool_decide (mpileup_key pp fa fq ∈ objects w)) eqn:Hk; simpl.
  - intros H. injection H as <-. apply bool_decide_eq_true in Hk. now split.
  - repeat next_call E; intros H; try discriminate; injection H as <-;
      (split; [apply elem_of_union_l; now apply elem_of_singleton|reflexivity]).
Qed.

(** X21: after a run of [filter_index_to_mpileup] that returned, a further
    run for the same pair of chunks returns the same key, uploads nothing and
    runs no command; but, unlike the other stages, it is not free of effects:
    each such run makes one more temporary directory and leaves it behind. *)
Theorem filter_index_to_mpileup_rerun
        (E E' : env) pp (fa fac fac' fq : Z) (fkey ckey fkey' ckey' : string)
        (w : world) x :
  outcome (filter_index_to_mpileup E pp fa fac fq fkey ckey) w = inr x ->
  let w1 := after (filter_index_to_mpileup E pp fa fac fq fkey ckey) w in
  let again := filter_index_to_mpileup E' pp fa fac' fq fkey' ckey' in
  outcome again w1 = inr x
  /\ untouched w1 (after again w1)
  /\ cwd (after again w1) = cwd w1
  /\ dirs (after again w1) = {[tmp_name (made w1)]} ∪ dirs w1
  /\ made (after again w1) = S (made w1).
Proof.
  intros H w1 again.
  destruct (filter_index_to_mpileup_stores E pp fa fac fq fkey ckey w x H)
    as [Hk ->].
  unfold again, after, outcome.
  rewrite (filter_index_to_mpileup_present E' pp fa fac' fq fkey' ckey' w1 Hk).
  unfold untouched. simpl. now repeat split.
Qed.

Lemma filter_index_to_mpileup_rerun_witness :
  let m := filter_index_to_mpileup (quiet 0) sample_params 3 3 7
             "a/m.bz2" "c/i.bz2" in
  let w1 := after m (fresh_world []) in
  outcome m w1 = inr (mpileup_key sample_params 3 7)
  /\ made (after m w1) = S (made w1).
Proof.
  intros m w1.
  destruct (filter_index_to_mpileup_rerun (quiet 0) (quiet 0) sample_params
              3 3 3 7 "a/m.bz2" "c/i.bz2" "a/m.bz2" "c/i.bz2"
              (fresh_world []) (mpileup_key sample_params 3 7))
    as (Ho & _ & _ & _ & Hm); [reflexivity|].
  split; [exact Ho|exact Hm].
Defined.

(** X22: the two shell scripts of [filter_index_to_mpileup] are run without
    any look at their exit status: the whole call, outcome and world, is the
    same whatever statuses the scripts report. *)
Theorem filter_index_to_mpileup_status_irrelevant
      (outcomes : ext -> option exn) (status status' : list string -> Z) (n : Z)
      pp (fa fac fq : Z) (fkey ckey : string) (w : world) :
  filter_index_to_mpileup (mk_env outcomes status n) pp fa fac fq fkey ckey w
  = filter_index_to_mpileup (mk_env outcomes status' n) pp fa fac fq fkey ckey w.
Proof.
  unfold filter_index_to_mpileup. open_stage.
  destruct (bool_decide (mpileup_key pp fa fq ∈ objects w)); simpl;
    [reflexivity|].
  repeat match goal with
         | |- context [outcomes ?c] => destruct (outcomes c) eqn:?; simpl
         end;
    reflexivity.
Qed.

(** ** The store *)

Ltac frame_store :=
  split; intros ? ?; set_unfold; tauto.

Lemma gem_indexer_frame (E : env) (fa fac : Z) (w : world) :
  objects w ⊆ objects (after (gem_indexer E fa fac) w)
  /\ objects (after (gem_indexer E fa fac) w) ⊆ {[gem_key fa]} ∪ objects w.
Proof.
  unfold gem_indexer, gem_key. open_stage.
  destruct (bool_decide (_ ∈ objects w)); simpl; [frame_store|].
  repeat (next_call E || next_status); frame_store.
Qed.

Lemma align_mapper_frame (E : env) pp run fa fac fq fqc (w : world) :
  objects w ⊆ objects (after (align_mapper E pp run fa fac fq fqc) w)
  /\ objects (after (align_mapper E pp run fa fac fq fqc) w)
     ⊆ {[map_index_key pp run fa fq; filtered_map_key pp run fa fq]} ∪ objects w.
Proof.
  unfold align_mapper. open_stage.
  destruct (bool_decide (map_index_key pp run fa fq ∈ objects w)); simpl;
    [destruct (bool_decide (filtered_map_key pp run fa fq ∈ objects w)); simpl|];
    repeat next_call E; frame_store.
Qed.

Lemma index_correction_frame (E : env) pp (fq : Z) keys (w : world) :
  objects w ⊆ objects (after (index_correction E pp fq keys) w)
  /\ objects (after (index_correction E pp fq keys) w)
     ⊆ {[corrected_index_key pp fq]} ∪ objects w.
Proof.
  unfold index_correction. open_stage.
  destruct (bool_decide (_ ∈ objects w)); simpl; [frame_store|].
  open_loop Hw; [frame_store|].
  repeat (next_call E || next_status); frame_store.
Qed.

Lemma filter_index_to_mpileup_frame
      (E : env) pp (fa fac fq : Z) (fkey ckey : string) (w : world) :
  objects w
    ⊆ objects (after (filter_index_to_mpileup E pp fa fac fq fkey ckey) w)
  /\ objects (after (filter_index_to_mpileup E pp fa fac fq fkey ckey) w)
     ⊆ {[mpileup_key pp fa fq]} ∪ objects w.
Proof.
  unfold filter_index_to_mpileup. open_stage.
  destruct (bool_decide (_ ∈ objects w)); simpl; [frame_store|].
  repeat next_call E; frame_store.
Qed.

(** X23: whatever happens in them, the four stage functions never remove an
    object from the store, and the only keys they may add are their own
    output keys: [gem/<id>.gem], the two mapper keys, the corrected-index key
    and the mpileup key. *)
Theorem stages_only_add_their_outputs
        (E : env) pp run (fa fac fq fqc : Z) keys (fkey ckey : string)
        (w : world) :
  let grows (m : world -> world) (own : gset string) :=
    objects w ⊆ objects (m w) /\ objects (m w) ⊆ own ∪ objects w in
  grows (after (gem_indexer E fa fac)) {[gem_key fa]}
  /\ grows (after (align_mapper E pp run fa fac fq fqc))
           {[map_index_key pp run fa fq; filtered_map_key pp run fa fq]}
  /\ grows (after (index_correction E pp fq keys))
           {[corrected_index_key pp fq]}
  /\ grows (after (filter_index_to_mpileup E pp fa fac fq fkey ckey))
           {[mpileup_key pp fa fq]}.
Proof.
  cbv zeta.
  split; [apply gem_indexer_frame|].
  split; [apply align_mapper_frame|].
  split; [apply index_correction_frame|apply filter_index_to_mpileup_frame].
Qed.

(** ** Working areas *)

(** X30: [gem_indexer] and [index_correction] always, and
    [filter_index_to_mpileup] whenever it has found its output missing,
    restore the working directory and leave none of the temporary directories
    they made behind, whether they return or raise. *)
Theorem stages_release_working_area
        (E : env) pp (fa fac fq : Z) keys (fkey ckey : string) (w : world) :
  mpileup_key pp fa fq ∉ objects w ->
  let released (m : world -> world) :=
    cwd (m w) = cwd w /\ dirs (m w) ⊆ dirs w in
  released (after (gem_indexer E fa fac))
  /\ released (after (index_correction E pp fq keys))
  /\ released (after (filter_index_to_mpileup E pp fa fac fq fkey ckey)).
Proof.
  intros Hk. cbv zeta.
  split; [apply gem_indexer_releases|].
  split; [apply index_correction_releases|].
  now apply filter_index_to_mpileup_releases.
Qed.

Lemma stages_release_working_area_witness :
  let m := filter_index_to_mpileup fetch_fails sample_params 3 3 7
             "a/m.bz2" "c/i.bz2" in
  cwd (after m (fresh_world [])) = "/home/worker"
  /\ dirs (after m (fresh_world [])) ⊆ ∅.
Proof.
  intros m.
  destruct (stages_release_working_area fetch_fails sample_params 3 3 7 []
              "a/m.bz2" "c/i.bz2" (fresh_world [])) as (_ & _ & H).
  - refine (bool_decide_eq_false_1 _ _). vm_compute. reflexivity.
  - exact H.
Defined.

End StagesMore.

(* ===================================================================== *)
(** * Properties of the bin edges *)
(* ===================================================================== *)

Section BinsFacts.
Import Bins.

Lemma rounds_none (d : Z) : d <= 0 -> Z.to_nat ((d + 99999) / 100000) = O.
Proof.
  intros Hd.
  assert ((d + 99999) / 100000 < 1) by (apply Z.div_lt_upper_bound; lia).
  lia.
Qed.

Lemma rounds_next (d : Z) :
  0 < d ->
  Z.to_nat ((d + 99999) / 100000)
  = S (Z.to_nat ((d - 100000 + 99999) / 100000)).
Proof.
  intros Hd.
  replace (d + 99999) with ((d - 100000 + 99999) + 1 * 100000) by lia.
  rewrite Z.div_add by lia.
  assert (0 <= (d - 100000 + 99999) / 100000) by (apply Z.div_pos; lia).
  lia.
Qed.

(** The edges that the loop appends: the multiples of the width below
    [max_index], counted from [x]. *)
Lemma fill_closed (fuel : nat) (max_index x : Z) (acc : list Z) :
  max_index - x <= 100000 * Z.of_nat fuel ->
  fill fuel max_index x acc
  = Some (x + 100000 * Z.of_nat (Z.to_nat ((max_index - x + 99999) / 100000)),
          acc ++ map (fun i => x + 100000 * Z.of_nat i)
                     (seq 0 (Z.to_nat ((max_index - x + 99999) / 100000)))).
Proof.
  revert x acc. induction fuel as [|fuel IH]; intros x acc Hfuel.
  - simpl. destruct (Z.ltb_spec x max_index) as [Hlt|Hge]; [lia|].
    rewrite rounds_none by lia. simpl. rewrite List.app_nil_r.
    do 2 f_equal. lia.
  - simpl. destruct (Z.ltb_spec x max_index) as [Hlt|Hge].
    + rewrite IH by lia.
      rewrite (rounds_next (max_index - x)) by lia.
      replace (max_index - (x + 100000) + 99999)
        with (max_index - x - 100000 + 99999) by lia.
      set (n := Z.to_nat ((max_index - x - 100000 + 99999) / 100000)).
      f_equal. f_equal; [lia|].
      rewrite <- List.app_assoc. f_equal. simpl. f_equal; [lia|].
      rewrite <- seq_shift, List.map_map.
      apply List.map_ext. intros i. lia.
    + rewrite rounds_none by lia. simpl. rewrite List.app_nil_r.
      do 2 f_equal. lia.
Qed.

Lemma rounds_suffice (max_index : Z) :
  max_index - 0 <= 100000 * Z.of_nat (rounds max_index).
Proof.
  unfold rounds.
  destruct (Z.le_gt_cases max_index 0) as [Hle|Hgt].
  - assert (0 <= Z.of_nat (Z.to_nat (max_index / 100000 + 1))) by lia. lia.
  - assert (0 <= max_index / 100000) by (apply Z.div_pos; lia).
    rewrite Z2Nat.id by lia.
    pose proof (Z.mod_pos_bound max_index 100000 ltac:(lia)).
    pose proof (Z.div_mod max_index 100000 ltac:(lia)). lia.
Qed.

(** [range_index] in closed form. *)
Lemma range_index_closed (max_index : Z) :
  range_index max_index
  = Some (map (fun i => 100000 * Z.of_nat i)
              (seq 0 (Z.to_nat ((max_index + 99999) / 100000)))
          ++ [max_index]).
Proof.
  unfold range_index.
  rewrite (fill_closed _ _ _ _ (rounds_suffice max_index)).
  rewrite Z.sub_0_r. cbv beta iota. rewrite List.app_nil_l.
  f_equal. f_equal. f_equal. lia.
Qed.

Lemma edges_sorted (n : nat) (a : nat) :
  StronglySorted Z.lt (map (fun i => 100000 * Z.of_nat i) (seq a n)).
Proof.
  revert a. induction n as [|n IH]; intros a; simpl; constructor.
  - apply IH.
  - apply List.Forall_forall. intros y Hy. apply List.in_map_iff in Hy.
    destruct Hy as (i & <- & Hi). apply List.in_seq in Hi. lia.
Qed.

Lemma sorted_lt_snoc (l : list Z) (x : Z) :
  StronglySorted Z.lt l -> Forall (fun b => b < x) l ->
  StronglySorted Z.lt (l ++ [x]).
Proof.
  induction 1 as [|b l Hs IH Hb]; intros Hx; simpl.
  - repeat constructor.
  - apply List.Forall_inv in Hx as Hbx. apply List.Forall_inv_tail in Hx.
    constructor; [now apply IH|].
    apply List.Forall_app. split; [exact Hb|]. now repeat constructor.
Qed.

Lemma bins_cons (a b : Z) (l : list Z) :
  bins (a :: b :: l) = (a, b) :: bins (b :: l).
Proof. reflexivity. Qed.

Lemma bins_above (p b : Z) (l : list Z) :
  StronglySorted Z.lt (b :: l) -> p <= b ->
  List.filter (in_bin p) (bins (b :: l)) = [].
Proof.
  revert b. induction l as [|c l IH]; intros b Hs Hp; [reflexivity|].
  rewrite bins_cons. simpl.
  apply StronglySorted_inv in Hs as [Hs Hb].
  apply List.Forall_inv in Hb as Hbc.
  unfold in_bin at 1. simpl.
  destruct (Z.ltb_spec b p); [lia|]. simpl. apply IH; [exact Hs|lia].
Qed.

Lemma one_bin (p a : Z) (l : list Z) :
  StronglySorted Z.lt (a :: l) -> a < p <= List.last l a ->
  length (List.filter (in_bin p) (bins (a :: l))) = 1%nat.
Proof.
  revert a. induction l as [|b l IH]; intros a Hs Hp; [simpl in Hp; lia|].
  rewrite bins_cons. simpl.
  apply StronglySorted_inv in Hs as [Hs Hb].
  unfold in_bin at 1. simpl.
  destruct (Z.ltb_spec a p); [|lia]. simpl.
  destruct (Z.leb_spec p b).
  - simpl. now rewrite (bins_above p b l Hs).
  - apply IH; [exact Hs|]. rewrite last_cons in Hp. lia.
Qed.

Lemma gaps_bounded (max_index : Z) (n : nat) (a : nat) :
  100000 * Z.of_nat (a + n) - 100000 < max_index <= 100000 * Z.of_nat (a + n) ->
  (0 < n)%nat ->
  Forall (fun b => 0 < snd b - fst b <= 100000)
         (bins (map (fun i => 100000 * Z.of_nat i) (seq a n) ++ [max_index])).
Proof.
  revert a. induction n as [|n IH]; intros a Hm Hn; [lia|].
  destruct n as [|n].
  - simpl. repeat constructor; simpl; lia.
  - change (seq a (S (S n))) with (a :: S a :: seq (S (S a)) n).
    simpl map. simpl app. rewrite bins_cons. constructor; [simpl; lia|].
    apply (IH (S a)); lia.
Qed.

(** X24: for a positive [max_index] the bin edges of [mpileup_conversion]
    start at 0, end at [max_index] and increase strictly, each bin being at
    most 100000 wide; so every position from 1 to [max_index] falls into
    exactly one bin. *)
Theorem range_index_partitions (max_index : Z) :
  0 < max_index ->
  exists edges,
    range_index max_index = Some (0 :: edges)
    /\ List.last edges 0 = max_index
    /\ StronglySorted Z.lt (0 :: edges)
    /\ Forall (fun b => 0 < snd b - fst b <= 100000) (bins (0 :: edges))
    /\ forall p, 0 < p <= max_index ->
         length (List.filter (in_bin p) (bins (0 :: edges))) = 1%nat.
Proof.
  intros Hpos. rewrite range_index_closed.
  pose proof (rounds_next max_index Hpos) as Hn.
  set (n := Z.to_nat ((max_index + 99999) / 100000)) in *.
  assert (Hbound : 100000 * Z.of_nat n - 100000 < max_index <= 100000 * Z.of_nat n).
  { unfold n.
    assert (0 <= (max_index + 99999) / 100000) by (apply Z.div_pos; lia).
    rewrite Z2Nat.id by lia.
    pose proof (Z.mod_pos_bound (max_index + 99999) 100000 ltac:(lia)).
    pose proof (Z.div_mod (max_index + 99999) 100000 ltac:(lia)). lia. }
  assert (Hs : StronglySorted Z.lt
                 (map (fun i => 100000 * Z.of_nat i) (seq 0 n) ++ [max_index])).
  { apply sorted_lt_snoc; [apply edges_sorted|].
    apply List.Forall_forall. intros y Hy. apply List.in_map_iff in Hy.
    destruct Hy as (i & <- & Hi). apply List.in_seq in Hi. lia. }
  assert (Hg : Forall (fun b => 0 < snd b - fst b <= 100000)
                 (bins (map (fun i => 100000 * Z.of_nat i) (seq 0 n)
                        ++ [max_index]))).
  { apply gaps_bounded; simpl; lia. }
  revert Hs Hg. rewrite Hn. simpl seq. simpl map. simpl app.
  set (edges := map (fun i => 100000 * Z.of_nat i) (seq 1 _) ++ [max_index]).
  intros Hs Hg.
  assert (Hlast : List.last edges 0 = max_index).
  { unfold edges. now rewrite List.last_last. }
  exists edges. split; [reflexivity|]. split; [exact Hlast|].
  split; [exact Hs|]. split; [exact Hg|].
  intros p Hp. apply one_bin; [exact Hs|]. now rewrite Hlast.
Qed.

Lemma range_index_partitions_witness :
  range_index 250000 = Some [0; 100000; 200000; 250000]
  /\ length (List.filter (in_bin 200000) (bins [0; 100000; 200000; 250000]))
     = 1%nat.
Proof.
  destruct (range_index_partitions 250000 ltac:(lia)) as (edges & He & _ & _ & _ & Hp).
  assert (Hr : range_index 250000 = Some [0; 100000; 200000; 250000])
    by (vm_compute; reflexivity).
  split; [exact Hr|].
  rewrite Hr in He. injection He as <-.
  apply Hp. lia.
Defined.

(** X25: without a positive [max_index] the loop body never runs and the
    only edge is [max_index] itself: there is no bin at all. *)
Theorem range_index_no_bin (max_index : Z) :
  max_index <= 0 ->
  range_index max_index = Some [max_index] /\ bins [max_index] = [].
Proof.
  intros Hle. rewrite range_index_closed, rounds_none by lia.
  now split.
Qed.

Lemma range_index_no_bin_witness :
  range_index 0 = Some [0] /\ bins [0] = [].
Proof. apply (range_index_no_bin 0). lia. Defined.

End BinsFacts.

(* ===================================================================== *)
(** * Properties of the reduce step *)
(* ===================================================================== *)

Section ReduceFacts.
Import Reduce.

Lemma joined_app (l1 l2 : list string) :
  joined (l1 ++ l2) = joined l1 +:+ joined l2.
Proof.
  induction l1 as [|x l1 IH]; simpl.
  - now rewrite append_nil_l.
  - now rewrite IH, append_assoc.
Qed.

Lemma read_events_joined (events : list event) (acc : string) :
  read_events events acc = acc +:+ joined (payloads events).
Proof.
  revert acc. induction events as [|[p|] events IH]; intros acc; simpl.
  - now rewrite append_nil_r.
  - now rewrite IH, append_assoc.
  - apply IH.
Qed.

Lemma select_keys_answers (c : client) (e : string) (keys : list string)
      (acc : string) :
  Forall (answers c e) keys ->
  select_keys c e keys acc = inr (acc +:+ joined (delivered c e keys)).
Proof.
  revert acc. induction keys as [|k keys IH]; intros acc Hall; simpl.
  - now rewrite append_nil_r.
  - apply List.Forall_inv in Hall as Hk. apply List.Forall_inv_tail in Hall.
    unfold answers in Hk. unfold delivered. simpl.
    destruct (select_object_content c k e) as [resp|]; [|contradiction].
    rewrite (IH _ Hall), read_events_joined, joined_app, append_assoc.
    reflexivity.
Qed.

Lemma select_keys_fails (c : client) (e : string) (keys : list string)
      (acc : string) (err : error) :
  select_keys c e keys acc = inl err <->
  exists pre k post,
    keys = pre ++ k :: post
    /\ Forall (answers c e) pre
    /\ select_object_content c k e = None
    /\ err = ValueError ("ERROR IN KEY: " +:+ k).
Proof.
  revert acc. induction keys as [|k keys IH]; intros acc; simpl.
  - split; [discriminate|]. intros (pre & k & post & H & _).
    destruct pre; discriminate.
  - destruct (select_object_content c k e) as [resp|] eqn:Hk.
    + rewrite IH. split.
      * intros (pre & k' & post & -> & Hpre & Hk' & ->).
        exists (k :: pre), k', post. split; [reflexivity|].
        split; [|now split]. constructor; [|exact Hpre].
        unfold answers. now rewrite Hk.
      * intros (pre & k' & post & Hkeys & Hpre & Hk' & ->).
        destruct pre as [|k0 pre]; simpl in Hkeys; injection Hkeys as <- ->.
        -- rewrite Hk in Hk'. discriminate.
        -- exists pre, k', post. apply List.Forall_inv_tail in Hpre.
           now repeat split.
    + split.
      * intros H. injection H as <-. exists [], k, keys. now repeat split.
      * intros (pre & k' & post & Hkeys & Hpre & Hk' & ->).
        destruct pre as [|k0 pre]; simpl in Hkeys; injection Hkeys as <- ->.
        -- reflexivity.
        -- apply List.Forall_inv in Hpre. unfold answers in Hpre.
           now rewrite Hk in Hpre.
Qed.

(** X26: [reduce_function] ends with its [ValueError] exactly when the
    query for some key raises, whatever it raises, and the message names the
    first such key; the merge script was then not started and no part was
    uploaded.  Whether it returns or raises, the working directory is left
    at [/tmp]. *)
Theorem reduce_function_names_failing_key
        (c : client) (keys : list string) (range : Balancer.PartitionRange)
        (mpu_id : string) (n_part : Z) (mpu_key : string) (st : state) :
  let run := reduce_function c keys range mpu_id n_part mpu_key st in
  (forall msg,
     snd run = inl (ValueError msg) <->
     exists pre k post,
       keys = pre ++ k :: post
       /\ Forall (answers c (expression range)) pre
       /\ select_object_content c k (expression range) = None
       /\ msg = "ERROR IN KEY: " +:+ k)
  /\ (forall msg,
        snd run = inl (ValueError msg) ->
        script_inputs (fst run) = script_inputs st
        /\ uploads (fst run) = uploads st)
  /\ cwd (fst run) = "/tmp".
Proof.
  intros run. unfold run, reduce_function.
  pose proof (select_keys_fails c (expression range) keys "") as Hf.
  destruct (select_keys c (expression range) keys "") as [err|data] eqn:Hs;
    simpl.
  - split; [|split; [now split|reflexivity]].
    intros msg. split.
    + intros H. injection H as ->.
      destruct (proj1 (Hf (ValueError msg)) eq_refl)
        as (pre & k & post & Hkeys & Hpre & Hk & Hmsg).
      exists pre, k, post. injection Hmsg as ->. now repeat split.
    + intros (pre & k & post & Hkeys & Hpre & Hk & ->).
      assert (H : @inl error string err
                  = inl (ValueError ("ERROR IN KEY: " +:+ k)))
        by (apply Hf; exists pre, k, post; now repeat split).
      now injection H as ->.
  - destruct (upload_part c (communicate c data) mpu_key mpu_id n_part);
      simpl; (split; [|split; [discriminate|reflexivity]]);
      intros msg; (split; [discriminate|]);
      intros (pre & k & post & Hkeys & Hpre & Hk & ->);
      assert (H : inr data = inl (ValueError ("ERROR IN KEY: " +:+ k)))
        by (apply Hf; exists pre, k, post; now repeat split);
      discriminate.
Qed.

(** X27: when every query answers and the upload succeeds,
    [reduce_function] feeds the merge script the record payloads of all keys,
    joined in the order of the keys, uploads what the script printed as one
    part under the given key, upload id and part number, and returns that
    part number and upload id with the ETag of the upload. *)
Theorem reduce_function_uploads_delivered
        (c : client) (keys : list string) (range : Balancer.PartitionRange)
        (mpu_id : string) (n_part : Z) (mpu_key : string) (st : state)
        (etag : string) :
  let data := joined (delivered c (expression range) keys) in
  Forall (answers c (expression range)) keys ->
  upload_part c (communicate c data) mpu_key mpu_id n_part = Some etag ->
  reduce_function c keys range mpu_id n_part mpu_key st
  = (mk_state "/tmp" (script_inputs st ++ [data])
              (uploads st ++ [mk_sent (communicate c data) mpu_key mpu_id n_part]),
     inr (Mpu.mk_part n_part etag mpu_id)).
Proof.
  intros data Hall Hup. unfold reduce_function.
  rewrite (select_keys_answers _ _ _ _ Hall), append_nil_l.
  fold data. now rewrite Hup.
Qed.

Lemma reduce_function_uploads_delivered_witness :
  reduce_function sample_client ["a"; "b"] (Balancer.mk_range 1 5) "U1" 2
                  "out" (mk_state "/home" [] [])
  = (mk_state "/tmp" ["a;b;"] [mk_sent ">a;b;" "out" "U1" 2],
     inr (Mpu.mk_part 2 "etag" "U1")).
Proof.
  apply (reduce_function_uploads_delivered sample_client ["a"; "b"]
           (Balancer.mk_range 1 5) "U1" 2 "out" (mk_state "/home" [] [])
           "etag").
  - repeat constructor; discriminate.
  - reflexivity.
Defined.

Lemma reduce_function_part (c : client) keys range mpu_id n_part mpu_key st p :
  snd (reduce_function c keys range mpu_id n_part mpu_key st) = inr p ->
  Mpu.PartNumber p = n_part /\ Mpu.mpu_id p = mpu_id.
Proof.
  unfold reduce_function.
  destruct (select_keys c (expression range) keys ""); simpl; [discriminate|].
  destruct (upload_part c _ mpu_key mpu_id n_part); simpl; [|discriminate].
  intros H. injection H as <-. now split.
Qed.

(** X28: the parts that runs of [reduce_function] for one upload return are
    all consumed by [finish] for that upload: it completes the upload with
    the part number and ETag of every one of them, in the order in which the
    parts are listed, and the part numbers are those the runs were given. *)
Theorem reduced_parts_are_finished
        (c : client) (mpu_id mpu_key key : string)
        (jobs : list (list string * Balancer.PartitionRange * Z))
        (parts : list Mpu.part) :
  Forall2 (returned c mpu_id mpu_key) jobs parts ->
  Mpu.finish key mpu_id parts
  = Mpu.mk_completion key mpu_id (map Mpu.strip parts)
  /\ map Mpu.PartNumber parts = map snd jobs.
Proof.
  intros Hall.
  assert (Hscan : Mpu.scan_parts mpu_id parts
                  = (map Mpu.strip parts, length parts)
                  /\ map Mpu.PartNumber parts = map snd jobs).
  { induction Hall as [|[[keys range] n_part] p jobs parts Hp _ [IH1 IH2]];
      [now split|].
    destruct Hp as [st Hp]. apply reduce_function_part in Hp as [Hn Hid].
    simpl. rewrite Hid, String.eqb_refl, IH1, Hn, IH2. now split. }
  destruct Hscan as [Hscan Hn]. unfold Mpu.finish. rewrite Hscan. now split.
Qed.

Lemma reduced_parts_are_finished_witness :
  Mpu.finish "out" "U1" [Mpu.mk_part 1 "etag" "U1"; Mpu.mk_part 2 "etag" "U1"]
  = Mpu.mk_completion "out" "U1" [(1, "etag"); (2, "etag")].
Proof.
  apply (reduced_parts_are_finished sample_client "U1" "out" "out"
           [(["a"], Balancer.mk_range 1 5, 1); (["b"], Balancer.mk_range 6 9, 2)]
           [Mpu.mk_part 1 "etag" "U1"; Mpu.mk_part 2 "etag" "U1"]).
  repeat constructor; exists (mk_state "/home" [] []); reflexivity.
Defined.

End ReduceFacts.

(* ===================================================================== *)
(** * Properties of the multipart keys *)
(* ===================================================================== *)

Section KeysFacts.
Import Stages MultipartKeys.

Lemma str_int_inj (a b : Z) : str_int a = str_int b -> a = b.
Proof.
  unfold str_int. intros H. apply DecimalZ.to_int_inj.
  assert (Hnn : forall z, Z.to_int z <> Decimal.Pos Decimal.Nil
                          /\ Z.to_int z <> Decimal.Neg Decimal.Nil).
  { intros [|p|p]; simpl; split; try discriminate;
      intros Hp; injection Hp as Hp;
      now apply DecimalPos.Unsigned.to_uint_nonnil in Hp. }
  destruct (Hnn a) as [Ha1 Ha2]. destruct (Hnn b) as [Hb1 Hb2].
  pose proof (NilZero.isi _ Ha1 Ha2) as Ha.
  pose proof (NilZero.isi _ Hb1 Hb2) as Hb.
  rewrite H, Hb in Ha. now injection Ha.
Qed.

Lemma append_inv_tail (t s1 s2 : string) : s1 +:+ t = s2 +:+ t -> s1 = s2.
Proof.
  revert s2. induction s1 as [|c s1 IH]; intros [|c2 s2] H.
  - reflexivity.
  - exfalso. apply (f_equal String.length) in H.
    rewrite append_nil_l, append_length in H. simpl in H. lia.
  - exfalso. apply (f_equal String.length) in H.
    rewrite append_nil_l, append_length in H. simpl in H. lia.
  - rewrite !append_cons in H. injection H as -> H. f_equal. now apply IH.
Qed.

Lemma multipart_key_inj (run_id : string) (i j : Z) :
  multipart_key run_id i = multipart_key run_id j -> i = j.
Proof.
  unfold multipart_key. intros H.
  do 3 apply String.app_inj in H.
  apply append_inv_tail in H. now apply str_int_inj.
Qed.

Lemma create_multipart_keys_loop (run_id : string) (r : option (list Z))
      (l : list Z) (acc : list string) :
  fold_left (fun keys i =>
               if wanted r i then keys ++ [multipart_key run_id i] else keys)
            l acc
  = acc ++ map (multipart_key run_id) (List.filter (wanted r) l).
Proof.
  revert acc. induction l as [|i l IH]; intros acc; simpl.
  - now rewrite List.app_nil_r.
  - rewrite IH. destruct (wanted r i); [|reflexivity].
    now rewrite <- List.app_assoc.
Qed.

Lemma range_NoDup (n : Z) : List.NoDup (range n).
Proof.
  unfold range. generalize (seq_NoDup (Z.to_nat n) 0).
  induction 1 as [|x l Hx _ IH]; simpl; constructor; [|exact IH].
  intros Hin. apply List.in_map_iff in Hin as (y & Hy & Hin).
  apply Nat2Z.inj in Hy. now subst y.
Qed.

Lemma in_range_iff (n i : Z) : In i (range n) <-> 0 <= i < n.
Proof.
  unfold range. rewrite List.in_map_iff. split.
  - intros (k & <- & Hk). apply List.in_seq in Hk. lia.
  - intros Hi. exists (Z.to_nat i). split; [lia|]. apply List.in_seq. lia.
Qed.

(** X29: [create_multipart_keys] gives one key for every chunk id from 0 up
    to [fasta_chunks] - 1 that the chunk range admits (every id when there
    is no range), and no other key; the keys of different chunks differ, so
    no two multipart uploads of a run write the same object. *)
Theorem create_multipart_keys_distinct
        (run_id : string) (fasta_chunks : Z) (r : option (list Z)) :
  let keys := create_multipart_keys run_id fasta_chunks r in
  List.NoDup keys
  /\ (forall k, In k keys <->
        exists i, 0 <= i < fasta_chunks /\ wanted r i = true
                  /\ k = multipart_key run_id i)
  /\ (r = None -> length keys = Z.to_nat fasta_chunks).
Proof.
  intros keys. unfold keys, create_multipart_keys.
  rewrite create_multipart_keys_loop. simpl.
  split; [|split].
  - assert (Hnd : List.NoDup (List.filter (wanted r) (range fasta_chunks)))
      by apply List.NoDup_filter, range_NoDup.
    induction Hnd as [|x l Hx _ IH]; simpl; constructor; [|exact IH].
    intros Hin. apply List.in_map_iff in Hin as (y & Hy & Hin).
    apply multipart_key_inj in Hy. now subst y.
  - intros k. rewrite List.in_map_iff. split.
    + intros (i & <- & Hi). apply List.filter_In in Hi as [Hi Hw].
      exists i. apply in_range_iff in Hi. now repeat split.
    + intros (i & Hi & Hw & ->). exists i. split; [reflexivity|].
      apply List.filter_In. split; [now apply in_range_iff|exact Hw].
  - intros ->. rewrite List.length_map.
    assert (Hall : forall l, List.filter (wanted None) l = l).
    { induction l as [|x l IH]; simpl; [reflexivity|now rewrite IH]. }
    rewrite Hall. unfold range. now rewrite List.length_map, List.length_seq.
Qed.

End KeysFacts.
